(** * NoteFlow playback engine: tone synthesizer, scheduler, renderer, ingestion

    A shallow embedding of the TypeScript sources of NoteFlow
    (components/MusicPlayer.tsx, services/geminiService.ts, App.tsx, types.ts)
    and the properties of its playback engine.

    Conventions of the embedding.
    - A JavaScript [number] used for time, geometry and speed is an exact
      rational ([Q]): the code only adds, subtracts, multiplies, divides and
      compares them.  IEEE-754 rounding is not modelled, and neither are the
      infinities and NaN of a division by zero: a statement that depends on
      a quotient assumes its divisor positive.
    - The oscillator frequency needs [Math.pow] at a fractional exponent and is
      the real number ([R]) the formula denotes.
    - The Web Audio calls of [playTone] throw on a negative time and on a
      frequency that is no float.  [playTone] and [playFrame] are modelled
      where they do not: for the sequences of [Shapes.playable], on which
      every call made is shown to be accepted ([Shapes.accepted]).  The
      statements that follow a whole session assume such a sequence.
    - The canvas is modelled with what the DOM does to it: [canvas.width]
      keeps the integer part of the number assigned, and [roundRect] throws
      on a negative radius, which ends the render.
    - Strings are [string]; the case mappings are the ASCII ones, which is what
      [toLowerCase]/[toUpperCase] do on the characters the code inspects.
    - React state ([useState]) and refs ([useRef]) are fields of one record;
      an event handler runs to completion on the state of the latest render.
      What a closure captured at render time is written out as an explicit
      argument or as a field of the pending timer. *)

From Stdlib Require Import List String Ascii Bool Arith ZArith QArith Qminmax Qround.
From Stdlib Require Import DecimalString.
From Stdlib Require Decimal DecimalFacts DecimalNat.
From Stdlib Require Import Lia Lqa Reals Lra.
Import ListNotations.

(** ** JavaScript string primitives used by the synthesizer *)

Module JSString.

Definition between (lo hi c : ascii) : bool :=
  ((nat_of_ascii lo <=? nat_of_ascii c) && (nat_of_ascii c <=? nat_of_ascii hi))%nat.

Definition isUpper (c : ascii) : bool := between "A" "Z" c.
Definition isLower (c : ascii) : bool := between "a" "z" c.
Definition isDigit (c : ascii) : bool := between "0" "9" c.

Definition toLowerChar (c : ascii) : ascii :=
  if isUpper c then ascii_of_nat (nat_of_ascii c + 32) else c.

Definition toUpperChar (c : ascii) : ascii :=
  if isLower c then ascii_of_nat (nat_of_ascii c - 32) else c.

Fixpoint mapChars (f : ascii -> ascii) (s : string) : string :=
  match s with
  | EmptyString => EmptyString
  | String c s' => String (f c) (mapChars f s')
  end.

(** [String.prototype.toLowerCase] and [toUpperCase]. *)
Definition toLowerCase : string -> string := mapChars toLowerChar.
Definition toUpperCase : string -> string := mapChars toUpperChar.

(** [s.includes(needle)]: [needle] occurs in [s] at some offset. *)
Fixpoint includes (s needle : string) : bool :=
  if String.prefix needle s then true
  else match s with
       | EmptyString => false
       | String _ s' => includes s' needle
       end.

Fixpoint allChars (p : ascii -> bool) (s : string) : bool :=
  match s with
  | EmptyString => true
  | String c s' => p c && allChars p s'
  end.

(** Longest prefix of [s] whose characters satisfy [p], and the rest. *)
Fixpoint span (p : ascii -> bool) (s : string) : string * string :=
  match s with
  | EmptyString => (EmptyString, EmptyString)
  | String c s' =>
      if p c then let (a, b) := span p s' in (String c a, b)
      else (EmptyString, s)
  end.

(** The character class [[a-zA-Z#]]. *)
Definition isPitchChar (c : ascii) : bool :=
  isLower c || isUpper c || Ascii.eqb c "#".

(** [pitch.match(/^([a-zA-Z#]+)(\d+)$/)]: the two capture groups.  The two
    classes are disjoint, so the greedy first group is the longest prefix of
    pitch characters and the second group is all that follows. *)
Definition matchPitch (pitch : string) : option (string * string) :=
  let (name, digits) := span isPitchChar pitch in
  match name, digits with
  | String _ _, String _ _ =>
      if allChars isDigit digits then Some (name, digits) else None
  | _, _ => None
  end.

Definition digitValue (c : ascii) : Z := Z.of_nat (nat_of_ascii c - 48).

Fixpoint parseDigits (acc : Z) (s : string) : Z :=
  match s with
  | EmptyString => acc
  | String c s' => parseDigits (acc * 10 + digitValue c) s'
  end.

(** [parseInt] on a non-empty string of decimal digits. *)
Definition parseInt (s : string) : Z := parseDigits 0 s.

Fixpoint indexOfFrom (i : Z) (l : list string) (x : string) : Z :=
  match l with
  | [] => (-1)%Z
  | y :: l' => if String.eqb y x then i else indexOfFrom (i + 1) l' x
  end.

(** [Array.prototype.indexOf]: first position of [x], or [-1]. *)
Definition indexOf (l : list string) (x : string) : Z := indexOfFrom 0 l x.

End JSString.

(** ** The polyphonic audio engine (class [AudioEngine]) *)

Module AudioEngine.
Import JSString.

Definition notes : list string :=
  ["C"; "C#"; "D"; "D#"; "E"; "F"; "F#"; "G"; "G#"; "A"; "A#"; "B"]%string.

(** The MIDI number [playTone] derives from a token: [None] when the regex
    does not match or the note name is not in the table, the two cases in
    which [frequency] keeps its initial value. *)
Definition noteMidiOf (pitch : string) : option Z :=
  match matchPitch pitch with
  | Some (m1, m2) =>
      let note := toUpperCase m1 in
      let octave := parseInt m2 in
      let semitoneIndex := indexOf notes note in
      if negb (semitoneIndex =? -1)%Z
      then Some ((octave + 1) * 12 + semitoneIndex)%Z
      else None
  | None => None
  end.

(** The value of [frequency] when the oscillator is created. *)
Definition frequencyOf (pitch : string) : R :=
  match noteMidiOf pitch with
  | Some noteMidi => (440 * Rpower 2 (IZR (noteMidi - 69) / 12))%R
  | None => 440%R
  end.

(** [pitch.toLowerCase().includes('rest')]. *)
Definition isRest (pitch : string) : bool :=
  includes (toLowerCase pitch) "rest".

Inductive ContextState := Suspended | Active.

(** Automation events put on the per-note gain. *)
Inductive GainEvent :=
| SetValueAtTime (value time : Q)
| LinearRampToValueAtTime (value time : Q)
| ExponentialRampToValueAtTime (value time : Q).

(** One oscillator with its envelope, as [playTone] builds and starts it. *)
Record Voice := mkVoice {
  osc_type : string;
  osc_frequency : R;
  osc_frequency_time : Q;
  noteGain : list GainEvent;
  osc_start : Q;
  osc_stop : Q
}.

Record AudioContext := mkContext {
  currentTime : Q;
  state : ContextState;
  voices : list Voice           (* oscillators started so far *)
}.

(** The engine object.  [toneCalls] is a ghost trace of the [playTone]
    invocations with their arguments (pitch, durationSec, startTime). *)
Record t := mkEngine {
  ctx : option AudioContext;
  gainNode : option Q;
  toneCalls : list (string * Q * Q)
}.

(** The constructor: a context and a master gain of 0.3 exist when there is
    a [window]. *)
Definition create (hasWindow : bool) (fresh : AudioContext) : t :=
  if hasWindow
  then mkEngine (Some fresh) (Some (3 # 10)) []
  else mkEngine None None [].

Definition resume (e : t) : t :=
  match ctx e with
  | Some c =>
      match state c with
      | Suspended => mkEngine (Some (mkContext (currentTime c) Active (voices c)))
                              (gainNode e) (toneCalls e)
      | Active => e
      end
  | None => e
  end.

Definition newVoice (pitch : string) (durationSec startTime : Q) : Voice :=
  let frequency := frequencyOf pitch in
  mkVoice "triangle" frequency startTime
    [ SetValueAtTime 0 startTime;
      LinearRampToValueAtTime (1 # 2) (startTime + (2 # 100));
      SetValueAtTime (4 # 10) (startTime + Qmax (5 # 100) (durationSec * (8 # 10)));
      ExponentialRampToValueAtTime (1 # 1000) (startTime + durationSec) ]
    startTime
    (startTime + durationSec + (1 # 10)).

Definition called (pitch : string) (durationSec startTime : Q) (e : t) : t :=
  mkEngine (ctx e) (gainNode e) (toneCalls e ++ [(pitch, durationSec, startTime)]).

Definition playTone (pitch : string) (durationSec startTime : Q) (e : t) : t :=
  let e := called pitch durationSec startTime e in
  match ctx e, gainNode e with
  | Some c, Some _ =>
      if isRest pitch then e
      else
        let v := newVoice pitch durationSec startTime in
        mkEngine (Some (mkContext (currentTime c) (state c) (voices c ++ [v])))
                 (gainNode e) (toneCalls e)
  | _, _ => e
  end.

Definition playChord (pitches : list string) (durationSec : Q) (e : t) : t :=
  match ctx e with
  | None => e
  | Some c =>
      let now := currentTime c in
      fold_left (fun e pitch => playTone pitch durationSec now e) pitches e
  end.

(** The pitches of a chord that are not rests. *)
Definition sounding (pitches : list string) : list string :=
  filter (fun p => negb (isRest p)) pitches.

End AudioEngine.

(** ** Data model (types.ts) *)

Module Types.

(** A rectangle [[ymin, xmin, ymax, xmax]] on the 0-1000 page scale. *)
Definition Box : Type := (Q * Q * Q * Q)%type.

Record FrameData := mkFrame {
  id : string;
  pageIndex : option nat;
  notes : list string;
  duration : Q;
  box_2d : Box;
  note_coordinates : option (list Box)
}.

Record SheetAnalysisResult := mkResult {
  tempo : Q;
  frames : list FrameData
}.

Inductive AppStatus := IDLE | ANALYZING | READY | PLAYING | ERROR.

End Types.

(** Outcome of code that may throw. *)
Inductive result (A : Type) : Type :=
| Ok (a : A)
| Throw (error : string).
Arguments Ok {A} a.
Arguments Throw {A} error.

(** ** The playback scheduler (component [MusicPlayer]) *)

Module MusicPlayer.
Import Types.

(** The callback [() => playFrame(index + 1)] handed to [setTimeout].  It
    calls the [playFrame] of the render in which it was created, so it
    carries that render's [playbackSpeed] along with the next index. *)
Record Callback := mkCallback {
  cb_index : nat;
  cb_speed : Q
}.

(** A timer of the host's event loop, pending until fired or cleared. *)
Record Timer := mkTimer {
  timer_id : nat;
  timer_delay : Q;              (* the delay passed to setTimeout, ms *)
  timer_due : Q;                (* earliest time at which it may fire *)
  timer_callback : Callback
}.

(** Component state, refs, and the part of the host it acts on.
    [frameReads] is a ghost trace of the indices at which [playFrame] read
    [data.frames]. *)
Record Player := mkPlayer {
  isPlaying : bool;
  currentFrameIndex : nat;
  playbackSpeed : Q;
  timeoutRef : option nat;
  audioEngine : option AudioEngine.t;
  pendingTimers : list Timer;
  nextTimerId : nat;
  clock : Q;                    (* host time, ms *)
  frameReads : list nat
}.

Definition setIsPlaying (b : bool) (st : Player) : Player :=
  mkPlayer b (currentFrameIndex st) (playbackSpeed st) (timeoutRef st)
    (audioEngine st) (pendingTimers st) (nextTimerId st) (clock st) (frameReads st).

Definition setCurrentFrameIndex (i : nat) (st : Player) : Player :=
  mkPlayer (isPlaying st) i (playbackSpeed st) (timeoutRef st)
    (audioEngine st) (pendingTimers st) (nextTimerId st) (clock st) (frameReads st).

Definition setPlaybackSpeed (s : Q) (st : Player) : Player :=
  mkPlayer (isPlaying st) (currentFrameIndex st) s (timeoutRef st)
    (audioEngine st) (pendingTimers st) (nextTimerId st) (clock st) (frameReads st).

Definition withAudio (f : AudioEngine.t -> AudioEngine.t) (st : Player) : Player :=
  mkPlayer (isPlaying st) (currentFrameIndex st) (playbackSpeed st) (timeoutRef st)
    (option_map f (audioEngine st))
    (pendingTimers st) (nextTimerId st) (clock st) (frameReads st).

Definition noteRead (i : nat) (st : Player) : Player :=
  mkPlayer (isPlaying st) (currentFrameIndex st) (playbackSpeed st) (timeoutRef st)
    (audioEngine st) (pendingTimers st) (nextTimerId st) (clock st)
    (frameReads st ++ [i]).

(** [timeoutRef.current = setTimeout(cb, delay)]: a fresh identifier, the
    timer joins the pending ones, a negative delay counts as zero. *)
Definition armTimeout (cb : Callback) (delay : Q) (st : Player) : Player :=
  let t := mkTimer (nextTimerId st) delay (clock st + Qmax 0 delay) cb in
  mkPlayer (isPlaying st) (currentFrameIndex st) (playbackSpeed st)
    (Some (nextTimerId st))
    (audioEngine st) (pendingTimers st ++ [t]) (S (nextTimerId st)) (clock st)
    (frameReads st).

(** [clearTimeout(id)]: the timer, when still pending, is dropped. *)
Definition clearTimeout (i : nat) (st : Player) : Player :=
  mkPlayer (isPlaying st) (currentFrameIndex st) (playbackSpeed st) (timeoutRef st)
    (audioEngine st)
    (filter (fun t => negb (timer_id t =? i)%nat) (pendingTimers st))
    (nextTimerId st) (clock st) (frameReads st).

(** [if (timeoutRef.current) clearTimeout(timeoutRef.current)]: the handle
    is a number, truthy when it is not zero. *)
Definition clearPending (st : Player) : Player :=
  match timeoutRef st with
  | Some ((S _) as i) => clearTimeout i st
  | _ => st
  end.

Section WithData.
Variable data : SheetAnalysisResult.

Definition beatDurationSec : Q := 60 / tempo data.

Definition frameDurationSec (frame : FrameData) (speed : Q) : Q :=
  (beatDurationSec * duration frame) / speed.

Definition frameDurationMs (frame : FrameData) (speed : Q) : Q :=
  frameDurationSec frame speed * 1000.

(** [playFrame(index)], in the scope of a render whose [playbackSpeed] is
    [speed]. *)
Definition playFrame (speed : Q) (index : nat) (st : Player) : result Player :=
  if (List.length (frames data) <=? index)%nat then
    Ok (setCurrentFrameIndex 0 (setIsPlaying false st))
  else
    let st := noteRead index st in
    match nth_error (frames data) index with
    | None => Throw "TypeError: frame is undefined"
    | Some frame =>
        let st := setCurrentFrameIndex index st in
        let sec := frameDurationSec frame speed in
        let ms := sec * 1000 in
        let st := withAudio AudioEngine.resume st in
        let st := withAudio (AudioEngine.playChord (notes frame) (sec * (95 # 100))) st in
        Ok (armTimeout (mkCallback (index + 1) speed) ms st)
    end.

Definition handlePlayPause (st : Player) : result Player :=
  if isPlaying st then
    Ok (clearPending (setIsPlaying false st))
  else
    playFrame (playbackSpeed st) (currentFrameIndex st) (setIsPlaying true st).

Definition handleStop (st : Player) : result Player :=
  Ok (clearPending (setCurrentFrameIndex 0 (setIsPlaying false st))).

(** The two speed buttons. *)
Definition handleSlower (st : Player) : result Player :=
  Ok (setPlaybackSpeed (Qmax (25 # 100) (playbackSpeed st - (25 # 100))) st).

Definition handleFaster (st : Player) : result Player :=
  Ok (setPlaybackSpeed (Qmin 2 (playbackSpeed st + (25 # 100))) st).

(** *** The event loop around the component *)

Inductive event :=
| ClickPlayPause
| ClickStop
| ClickSlower
| ClickFaster
| TimerFires (i : nat)
| Elapse (dt : Q).

Definition findTimer (i : nat) (st : Player) : option Timer :=
  find (fun t => (timer_id t =? i)%nat) (pendingTimers st).

(** Time passes on the host clock (ms) and on the audio clock (s). *)
Definition elapse (dt : Q) (st : Player) : Player :=
  let tick (e : AudioEngine.t) :=
    match AudioEngine.ctx e with
    | Some c =>
        AudioEngine.mkEngine
          (Some (AudioEngine.mkContext (AudioEngine.currentTime c + dt / 1000)
                   (AudioEngine.state c) (AudioEngine.voices c)))
          (AudioEngine.gainNode e) (AudioEngine.toneCalls e)
    | None => e
    end in
  mkPlayer (isPlaying st) (currentFrameIndex st) (playbackSpeed st) (timeoutRef st)
    (option_map tick (audioEngine st))
    (pendingTimers st) (nextTimerId st) (clock st + dt) (frameReads st).

(** A timer may fire when it is pending and due; it leaves the pending
    ones and its callback runs. *)
Definition fire (i : nat) (st : Player) : option (result Player) :=
  match findTimer i st with
  | Some t =>
      if Qle_bool (timer_due t) (clock st) then
        let cb := timer_callback t in
        Some (playFrame (cb_speed cb) (cb_index cb) (clearTimeout i st))
      else None
  | None => None
  end.

(** What an event does; [None] when it cannot occur in this state. *)
Definition handle (ev : event) (st : Player) : option (result Player) :=
  match ev with
  | ClickPlayPause => Some (handlePlayPause st)
  | ClickStop => Some (handleStop st)
  | ClickSlower => Some (handleSlower st)
  | ClickFaster => Some (handleFaster st)
  | TimerFires i => fire i st
  | Elapse dt => if Qle_bool 0 dt then Some (Ok (elapse dt st)) else None
  end.

Definition step (ev : event) (st : Player) : option Player :=
  match handle ev st with
  | Some (Ok st') => Some st'
  | _ => None
  end.

Fixpoint run (evs : list event) (st : Player) : option Player :=
  match evs with
  | [] => Some st
  | ev :: evs' =>
      match step ev st with
      | Some st' => run evs' st'
      | None => None
      end
  end.

(** The component right after mounting: the effect has built the audio
    engine, nothing is scheduled. *)
Definition mount : Player :=
  mkPlayer false 0 1 None
    (Some (AudioEngine.create true
             (AudioEngine.mkContext 0 AudioEngine.Suspended [])))
    [] 1 0 [].

Definition reachable (st : Player) : Prop :=
  exists evs, run evs mount = Some st.

(** Events that are not transport calls: time passing, timers firing. *)
Definition passive (ev : event) : bool :=
  match ev with
  | TimerFires _ | Elapse _ => true
  | _ => false
  end.

(** What holds of every state the component can be in: the event loop
    holds no timer while the player is stopped, and while it plays holds
    exactly the one [timeoutRef] names, set to play the next frame. *)
Definition Inv (st : Player) : Prop :=
  (1 <= nextTimerId st)%nat /\
  (isPlaying st = false -> pendingTimers st = []) /\
  (isPlaying st = true ->
   exists t, pendingTimers st = [t] /\
             timeoutRef st = Some (timer_id t) /\
             (1 <= timer_id t)%nat /\
             cb_index (timer_callback t) = S (currentFrameIndex st) /\
             (currentFrameIndex st < List.length (frames data))%nat) /\
  Forall (fun i => (i < List.length (frames data))%nat) (frameReads st) /\
  ((currentFrameIndex st < List.length (frames data))%nat \/ currentFrameIndex st = 0%nat).

(** The fields a passive event may not touch once nothing is pending. *)
Definition sameSession (st st' : Player) : Prop :=
  isPlaying st' = isPlaying st /\
  currentFrameIndex st' = currentFrameIndex st /\
  playbackSpeed st' = playbackSpeed st /\
  timeoutRef st' = timeoutRef st /\
  pendingTimers st' = pendingTimers st /\
  nextTimerId st' = nextTimerId st /\
  frameReads st' = frameReads st /\
  option_map AudioEngine.toneCalls (audioEngine st') =
  option_map AudioEngine.toneCalls (audioEngine st).

End WithData.

End MusicPlayer.

(** ** The view renderer ([drawFrame]) *)

Module Renderer.
Import Types.

Record Image := mkImage {
  complete : bool;
  naturalWidth : Q;
  naturalHeight : Q
}.

Inductive DrawOp :=
| ClearRect (x y w h : Q)
| DrawImage (page : nat) (sx sy sw sh dx dy dw dh : Q)
| BeginPath
| RoundRect (x y w h r : Q)
| Fill
| Stroke.

(** The canvas element: its size as the DOM keeps it, whether a 2d context
    can be had, and the drawing calls made since its size was last set. *)
Record Canvas := mkCanvas {
  width : Q;
  height : Q;
  has2d : bool;
  ops : list DrawOp
}.

(** A number cut to its integer part. *)
Definition truncate (x : Q) : Z :=
  if Qle_bool 0 x then Qfloor x else Qceiling x.

(** What [canvas.width] (or [height]) reads after [canvas.width = x]: the
    attribute is an unsigned long, so the number is truncated and taken
    modulo 2^32; it is kept when it is at most 2^31 - 1, and the attribute
    takes its default otherwise. *)
Definition assignDimension (default : Z) (x : Q) : Q :=
  let n := (truncate x mod 2 ^ 32)%Z in
  inject_Z (if (n <=? 2147483647)%Z then n else default).

Definition displayHeight : Q := 400.
Definition padding : Q := 2.

(** The body of the [forEach] over [note_coordinates], up to the mapped box
    [(drawX, drawY, drawW, drawH)]. *)
Definition mapHighlight (region : Box) (displayWidth : Q) (noteBox : Box)
  : Q * Q * Q * Q :=
  let '(c_ymin, c_xmin, c_ymax, c_xmax) := region in
  let '(n_ymin, n_xmin, n_ymax, n_xmax) := noteBox in
  let relX := (n_xmin - c_xmin) / (c_xmax - c_xmin) in
  let drawX := relX * displayWidth in
  let relY := (n_ymin - c_ymin) / (c_ymax - c_ymin) in
  let drawY := relY * displayHeight in
  let relW := (n_xmax - n_xmin) / (c_xmax - c_xmin) in
  let drawW := relW * displayWidth in
  let relH := (n_ymax - n_ymin) / (c_ymax - c_ymin) in
  let drawH := relH * displayHeight in
  (drawX, drawY, drawW, drawH).

(** [const r = Math.min(4, drawW/2, drawH/2)] *)
Definition cornerRadius (b : Q * Q * Q * Q) : Q :=
  let '(drawX, drawY, drawW, drawH) := b in
  Qmin 4 (Qmin (drawW / 2) (drawH / 2)).

(** The [roundRect] call made for a mapped box. *)
Definition roundRectOf (b : Q * Q * Q * Q) : DrawOp :=
  let '(drawX, drawY, drawW, drawH) := b in
  RoundRect (drawX - padding) (drawY - padding)
    (Qmax 1 (drawW + padding * 2)) (Qmax 1 (drawH + padding * 2)) (cornerRadius b).

(** The four calls of one turn of the [forEach]. *)
Definition drawHighlight (region : Box) (displayWidth : Q) (noteBox : Box)
  : list DrawOp :=
  [BeginPath; roundRectOf (mapHighlight region displayWidth noteBox); Fill; Stroke].

(** The [forEach] over the note boxes.  The 2d context rejects a negative
    radius: [roundRect] then throws a RangeError, which ends [drawFrame]. *)
Fixpoint drawHighlights (region : Box) (displayWidth : Q) (boxes : list Box)
  : result (list DrawOp) :=
  match boxes with
  | [] => Ok []
  | noteBox :: rest =>
      if Qle_bool 0 (cornerRadius (mapHighlight region displayWidth noteBox)) then
        match drawHighlights region displayWidth rest with
        | Ok calls => Ok (drawHighlight region displayWidth noteBox ++ calls)
        | Throw e => Throw e
        end
      else Throw "RangeError"
  end.

Definition displayWidthOf (img : Image) (region : Box) : Q :=
  let '(c_ymin, c_xmin, c_ymax, c_xmax) := region in
  let srcW := ((c_xmax - c_xmin) / 1000) * naturalWidth img in
  let srcH := ((c_ymax - c_ymin) / 1000) * naturalHeight img in
  let aspectRatio := srcW / srcH in
  displayHeight * aspectRatio.

(** [drawFrame(index)]: the canvas afterwards, left as it was on each of the
    early returns, or the error thrown.  The canvas is cleared and the crop
    drawn with [canvas.width] and [canvas.height] as read back from the
    element; the highlights are mapped with [displayWidth] and
    [displayHeight].  A complete image is one that was decoded. *)
Definition drawFrame (data : SheetAnalysisResult) (images : list Image)
    (canvas : option Canvas) (index : nat) : result (option Canvas) :=
  match canvas, nth_error (frames data) index with
  | Some cv, Some frame =>
      let imgIndex := match pageIndex frame with Some i => i | None => 0%nat end in
      match nth_error images imgIndex with
      | Some img =>
          if negb (complete img) then Ok canvas
          else if negb (has2d cv) then Ok canvas
          else
            let '(c_ymin, c_xmin, c_ymax, c_xmax) := box_2d frame in
            let srcX := (c_xmin / 1000) * naturalWidth img in
            let srcY := (c_ymin / 1000) * naturalHeight img in
            let srcW := ((c_xmax - c_xmin) / 1000) * naturalWidth img in
            let srcH := ((c_ymax - c_ymin) / 1000) * naturalHeight img in
            let displayWidth := displayWidthOf img (box_2d frame) in
            let canvasWidth := assignDimension 300 displayWidth in
            let canvasHeight := assignDimension 150 displayHeight in
            let crop :=
              [ ClearRect 0 0 canvasWidth canvasHeight;
                DrawImage imgIndex srcX srcY srcW srcH 0 0 canvasWidth canvasHeight ] in
            let highlights :=
              match note_coordinates frame with
              | Some ((_ :: _) as boxes) =>
                  drawHighlights (box_2d frame) displayWidth boxes
              | _ => Ok []
              end in
            match highlights with
            | Ok calls =>
                Ok (Some (mkCanvas canvasWidth canvasHeight (has2d cv) (crop ++ calls)))
            | Throw e => Throw e
            end
      | None => Ok canvas
      end
  | _, _ => Ok canvas
  end.

End Renderer.

(** ** Ingestion ([analyzeSheetMusic] and [App.handleFilesSelect]) *)

Module GeminiService.
Import Types.

(** The value [JSON.parse] returns, seen through the fields the code reads:
    [frames] is [None] when the parsed value has no [frames] array. *)
Record Payload := mkPayload {
  p_tempo : Q;
  p_frames : option (list FrameData)
}.

Definition showNat (n : nat) : string := NilZero.string_of_uint (Nat.to_uint n).
Definition showN (n : N) : string := NilZero.string_of_uint (N.to_uint n).

(** [`frame-${index}-${Date.now()}`] *)
Definition frameId (index : nat) (now : N) : string :=
  ("frame-" ++ showNat index ++ "-" ++ showN now)%string.

Definition withId (frame : FrameData) (i : string) : FrameData :=
  mkFrame i (pageIndex frame) (notes frame) (duration frame) (box_2d frame)
    (note_coordinates frame).

(** [data.frames.map((frame, index) => ({...frame, id: ...}))]; [dateNow k]
    is what [Date.now()] returns in the call for index [k]. *)
Fixpoint assignIds (dateNow : nat -> N) (index : nat) (fs : list FrameData)
  : list FrameData :=
  match fs with
  | [] => []
  | frame :: fs' =>
      withId frame (frameId index (dateNow index)) :: assignIds dateNow (S index) fs'
  end.

(** [analyzeSheetMusic], from the point where the service has answered:
    [response] is the outcome of [generateContent] with the [text] of the
    response, [parse] stands for [JSON.parse] ([None]: it throws). *)
Definition analyzeSheetMusic (apiKey : bool) (response : result (option string))
    (parse : string -> option Payload) (dateNow : nat -> N)
  : result SheetAnalysisResult :=
  if negb apiKey then Throw "API Key is missing."
  else
    match response with
    | Throw e => Throw e
    | Ok None | Ok (Some EmptyString) => Throw "No response from AI"
    | Ok (Some text) =>
        match parse text with
        | None => Throw "SyntaxError"
        | Some data =>
            match p_frames data with
            | None => Throw "TypeError: data.frames.map is not a function"
            | Some fs => Ok (mkResult (p_tempo data) (assignIds dateNow 0 fs))
            end
        end
    end.

End GeminiService.

Module App.
Import Types.

Record State := mkApp {
  status : AppStatus;
  imageSrcs : list string;
  sheetData : option SheetAnalysisResult;
  errorMessage : option string
}.

Definition initial : State := mkApp IDLE [] None None.

(** [handleFilesSelect]: [srcs] are the data URLs once every file is read
    ([None]: a read failed), [analysis] is what [analyzeSheetMusic] gives. *)
Definition handleFilesSelect (srcs : option (list string))
    (analysis : result SheetAnalysisResult) (app : State) : State :=
  match srcs with
  | None => mkApp ERROR (imageSrcs app) (sheetData app) (Some "Error reading files."%string)
  | Some srcs =>
      match analysis with
      | Ok r => mkApp READY srcs (Some r) None
      | Throw _ =>
          mkApp ERROR srcs (sheetData app)
            (Some "Failed to analyze sheet music. Please ensure the images are clear and try again."%string)
      end
  end.

(** The playback session: [MusicPlayer] is rendered, freshly mounted, when
    the status is READY or PLAYING, there is an image and there is data. *)
Definition session (app : State) : option (SheetAnalysisResult * MusicPlayer.Player) :=
  match status app, imageSrcs app, sheetData app with
  | (READY | PLAYING), _ :: _, Some data => Some (data, MusicPlayer.mount)
  | _, _, _ => None
  end.

End App.

(** ** Sample sessions *)

Module Samples.
Import Types MusicPlayer.
Local Open Scope string_scope.

Definition page : Box := (0, 0, 1000, 1000).

(** Tempo 120; C4 for one beat, a rest for half a beat, E4+G4 for two. *)
Definition scenario : SheetAnalysisResult :=
  mkResult 120
    [ mkFrame "frame-0" (Some 0%nat) ["C4"] 1 page None;
      mkFrame "frame-1" (Some 0%nat) ["rest"] (1 # 2) page None;
      mkFrame "frame-2" (Some 0%nat) ["E4"; "G4"] 2 page None ].

(** The scenario right after the play button was pressed. *)
Definition playingScenario : Player :=
  match run scenario [ClickPlayPause] mount with
  | Some st => st
  | None => mount
  end.

(** The scenario playing its last frame. *)
Definition lastFrameOfScenario : Player :=
  match run scenario [ClickPlayPause; Elapse 500; TimerFires 1;
                      Elapse 250; TimerFires 2] mount with
  | Some st => st
  | None => mount
  end.

(** Two frames of one beat each at tempo 120. *)
Definition twoBeats : SheetAnalysisResult :=
  mkResult 120
    [ mkFrame "frame-0" (Some 0%nat) ["C4"] 1 page None;
      mkFrame "frame-1" (Some 0%nat) ["D4"] 1 page None ].

Definition secondBeat : FrameData :=
  mkFrame "frame-1" (Some 0%nat) ["D4"] 1 page None.

(** A frame whose duration is zero. *)
Definition stalled : SheetAnalysisResult :=
  mkResult 120 [ mkFrame "frame-0" (Some 0%nat) ["C4"] 0 page None ].

(** A payload with no frames and tempo 0. *)
Definition emptyPayload : GeminiService.Payload :=
  GeminiService.mkPayload 0 (Some []).

(** A frame whose one highlight is its whole region, and its page. *)
Definition wholeRegion : Box := (100, 200, 300, 600).

Definition highlighted : SheetAnalysisResult :=
  mkResult 90
    [ mkFrame "frame-0" (Some 0%nat) ["A4"] 1 wholeRegion (Some [wholeRegion]) ].

Definition pageImage : Renderer.Image := Renderer.mkImage true 1000 800.

(** A frame with one note box whose right bound is left of its left bound. *)
Definition inverted : SheetAnalysisResult :=
  mkResult 90
    [ mkFrame "frame-0" (Some 0%nat) ["A4"] 1 wholeRegion
        (Some [(150, 400, 200, 300)]) ].

Definition blankCanvas : Renderer.Canvas := Renderer.mkCanvas 300 150 true [].

(** A page 1001 pixels wide, shown whole with the whole page highlighted. *)
Definition widePage : Renderer.Image := Renderer.mkImage true 1001 800.

Definition wholePage : Box := (0, 0, 1000, 1000).

Definition fullPage : SheetAnalysisResult :=
  mkResult 90
    [ mkFrame "frame-0" (Some 0%nat) ["A4"] 1 wholePage (Some [wholePage]) ].

End Samples.

(** ** Vocabulary of the statements *)

Module Grammar.
Import JSString.
Local Open Scope string_scope.

Definition isLetter (c : ascii) : bool := isLower c || isUpper c.

(** A pitch token as the grammar has it: a letter, an optional sharp,
    digits. *)
Definition parsesAsPitch (pitch : string) : Prop :=
  exists (letter : ascii) (sharp digits : string),
    pitch = String letter (sharp ++ digits) /\
    isLetter letter = true /\
    (sharp = "" \/ sharp = "#") /\
    digits <> "" /\ allChars isDigit digits = true.

End Grammar.

Module Claims.
Import Types MusicPlayer.

(** "No zero-length or negative-delay timer is ever armed": every timer
    pending after [playFrame] has a positive delay. *)
Definition armsOnlyPositiveDelays (data : SheetAnalysisResult)
    (speed : Q) (index : nat) (st : Player) : Prop :=
  forall st', playFrame data speed index st = Ok st' ->
              Forall (fun t => 0 < timer_delay t) (pendingTimers st').

(** "Loading fails whenever the frames are empty or the tempo is not
    positive": such a payload, however it arrives, leaves the application
    in ERROR with no playback session. *)
Definition rejectsDegenerate (p : GeminiService.Payload) : Prop :=
  (GeminiService.p_frames p = Some [] \/ GeminiService.p_tempo p <= 0) ->
  forall (text : string) (srcs : list string) (dateNow : nat -> N),
    text <> EmptyString ->
    let app := App.handleFilesSelect (Some srcs)
                 (GeminiService.analyzeSheetMusic true (Ok (Some text))
                    (fun _ => Some p) dateNow)
                 App.initial in
    App.status app = ERROR /\ App.session app = None.


End Claims.

(** ** What the player shows, and its teardown *)

Module PlayerView.
Import Types MusicPlayer.

(** The cleanup of the mount effect:
    [if (timeoutRef.current) clearTimeout(timeoutRef.current)]. *)
Definition cleanup (st : Player) : Player := clearPending st.

(** [data.frames[currentFrameIndex]], [None] for [undefined]. *)
Definition currentFrame (data : SheetAnalysisResult) (st : Player) : option FrameData :=
  nth_error (frames data) (currentFrameIndex st).

(** The width of the progress bar, in percent:
    [((currentFrameIndex + 1) / data.frames.length) * 100]. *)
Definition progressPercent (data : SheetAnalysisResult) (st : Player) : Q :=
  (inject_Z (Z.of_nat (currentFrameIndex st + 1)) /
   inject_Z (Z.of_nat (List.length (frames data)))) * 100.

(** The notes of the frame at an index, none when there is no such frame. *)
Definition notesAt (data : SheetAnalysisResult) (i : nat) : list string :=
  match nth_error (frames data) i with
  | Some frame => notes frame
  | None => []
  end.

(** The pitches handed to [playTone] so far, in order. *)
Definition pitchesPlayed (e : AudioEngine.t) : list string :=
  map (fun call => fst (fst call)) (AudioEngine.toneCalls e).

End PlayerView.

(** ** The upload control (component [FileUpload]) *)

Module FileUpload.

Record File := mkFile {
  file_name : string;
  file_type : string
}.

Record State := mkUpload {
  dragActive : bool;
  selectedCount : nat
}.

Definition initial : State := mkUpload false 0.

(** [f.type.startsWith('image/')] *)
Definition isImage (f : File) : bool := String.prefix "image/" (file_type f).

(** [handleDrag], on the [type] of the event. *)
Definition handleDrag (eventType : string) (st : State) : State :=
  if (String.eqb eventType "dragenter" || String.eqb eventType "dragover")%bool
  then mkUpload true (selectedCount st)
  else if String.eqb eventType "dragleave"
       then mkUpload false (selectedCount st)
       else st.

(** [handleFiles]: the new state and, when it is made, the argument of the
    call to [onFilesSelect]. *)
Definition handleFiles (files : list File) (st : State) : State * option (list File) :=
  let validFiles := filter isImage files in
  match validFiles with
  | _ :: _ => (mkUpload (dragActive st) (List.length validFiles), Some validFiles)
  | [] => (st, None)
  end.

(** [handleDrop]; [files] is [e.dataTransfer.files], [None] when absent. *)
Definition handleDrop (files : option (list File)) (st : State)
  : State * option (list File) :=
  let st := mkUpload false (selectedCount st) in
  match files with
  | Some ((_ :: _) as fs) => handleFiles fs st
  | _ => (st, None)
  end.

(** [handleChange]; [files] is [e.target.files]. *)
Definition handleChange (files : option (list File)) (st : State)
  : State * option (list File) :=
  match files with
  | Some ((_ :: _) as fs) => handleFiles fs st
  | _ => (st, None)
  end.

End FileUpload.

(** ** The rest of [App] *)

Module AppFlow.
Import Types App.

(** [handleReset] *)
Definition handleReset (app : State) : State := mkApp IDLE [] None None.

(** [Promise.all] over the file readers: the data URLs in the order of the
    files, or a rejection as soon as one reader fails ([read f = None]). *)
Fixpoint readFiles (read : FileUpload.File -> option string)
    (files : list FileUpload.File) : option (list string) :=
  match files with
  | [] => Some []
  | f :: fs =>
      match read f, readFiles read fs with
      | Some src, Some srcs => Some (src :: srcs)
      | _, _ => None
      end
  end.

(** A drop on the upload control carried through to the application:
    [handleFilesSelect] runs when [handleDrop] calls [onFilesSelect]. *)
Definition dropFiles (read : FileUpload.File -> option string)
    (analysis : result SheetAnalysisResult)
    (files : option (list FileUpload.File)) (app : State) : State :=
  match snd (FileUpload.handleDrop files FileUpload.initial) with
  | Some valid => handleFilesSelect (readFiles read valid) analysis app
  | None => app
  end.

End AppFlow.

(** ** More vocabulary *)

Module Shapes.
Import AudioEngine.

(** Each index read is the one before it, its successor, or 0. *)
Fixpoint stepwise (l : list nat) : Prop :=
  match l with
  | a :: ((b :: _) as tl) => (b = S a \/ b = a \/ b = 0%nat) /\ stepwise tl
  | _ => True
  end.

Definition eventTime (g : GainEvent) : Q :=
  match g with
  | SetValueAtTime _ t => t
  | LinearRampToValueAtTime _ t => t
  | ExponentialRampToValueAtTime _ t => t
  end.

Fixpoint nondecreasing (l : list Q) : Prop :=
  match l with
  | a :: ((b :: _) as tl) => a <= b /\ nondecreasing tl
  | _ => True
  end.

(** The frequency of a pitch fits the single-precision float that
    [AudioParam.setValueAtTime] takes: its MIDI number, when it has one, is
    at most 1499 (440 * 2^((1499 - 69) / 12) is about 3.28e38). *)
Definition finitePitch (pitch : string) : bool :=
  match noteMidiOf pitch with
  | Some noteMidi => (noteMidi <=? 1499)%Z
  | None => true
  end.

(** What Web Audio requires of the calls [playTone] makes for a voice
    ([setValueAtTime], the two ramps, [start] and [stop] throw on a
    negative time, [setValueAtTime] on a frequency that is no float): a call
    of [playTone] with these arguments runs to its end. *)
Definition accepted (call : string * Q * Q) : Prop :=
  let '(pitch, durationSec, startTime) := call in
  isRest pitch = false ->
  let v := newVoice pitch durationSec startTime in
  finitePitch pitch = true /\
  0 <= osc_frequency_time v /\
  Forall (fun g => 0 <= eventTime g) (noteGain v) /\
  0 <= osc_start v /\ 0 <= osc_stop v.

(** The sequences whose frames the Web Audio calls of [playTone] accept at
    every positive speed: a positive tempo, no negative duration and no
    pitch beyond the float range.  On any other sequence a call of
    [playTone] can throw, and [playFrame] with it, before the timer is
    armed. *)
Definition playable (data : Types.SheetAnalysisResult) : Prop :=
  0 < Types.tempo data /\
  Forall (fun f => 0 <= Types.duration f /\
                   forallb finitePitch (Types.notes f) = true)
         (Types.frames data).

(** What playing keeps true in a playable session: the speeds in use are
    positive, no pending delay is negative, the audio clock is not negative
    and every call of [playTone] made so far is one Web Audio accepts. *)
Definition Sound (st : MusicPlayer.Player) : Prop :=
  0 < MusicPlayer.playbackSpeed st /\
  Forall (fun t => 0 <= MusicPlayer.timer_delay t /\
                   0 < MusicPlayer.cb_speed (MusicPlayer.timer_callback t))
         (MusicPlayer.pendingTimers st) /\
  exists e c g,
    MusicPlayer.audioEngine st = Some e /\ ctx e = Some c /\
    gainNode e = Some g /\
    0 <= currentTime c /\
    Forall accepted (toneCalls e).

(** A box whose bounds are in order. *)
Definition upright (b : Types.Box) : Prop :=
  let '(ymin, xmin, ymax, xmax) := b in xmin <= xmax /\ ymin <= ymax.

(** A box lies within another, bound by bound. *)
Definition within (inner outer : Types.Box) : Prop :=
  let '(i_ymin, i_xmin, i_ymax, i_xmax) := inner in
  let '(o_ymin, o_xmin, o_ymax, o_xmax) := outer in
  o_xmin <= i_xmin /\ i_xmin <= i_xmax /\ i_xmax <= o_xmax /\
  o_ymin <= i_ymin /\ i_ymin <= i_ymax /\ i_ymax <= o_ymax.

End Shapes.

(** ** More sample sessions *)

Module MoreSamples.
Import Types MusicPlayer.

(** A result with no frames. *)
Definition silent : SheetAnalysisResult := mkResult 100 [].

Definition silentAfterPlay : Player :=
  match run silent [ClickPlayPause] mount with
  | Some st => st
  | None => mount
  end.

(** The scenario after the faster button was pressed six times. *)
Definition fastest : Player :=
  match run Samples.scenario
          [ClickFaster; ClickFaster; ClickFaster; ClickFaster; ClickFaster; ClickFaster]
          mount with
  | Some st => st
  | None => mount
  end.

End MoreSamples.

Import Types.

(** * Properties *)

(** ** Strings and the pitch grammar *)

Section PitchGrammar.
Import JSString AudioEngine Grammar.
Local Open Scope string_scope.

(** Deciding a property of a character by running through all of them. *)
Ltac every_char c :=
  destruct c as [[] [] [] [] [] [] [] []]; vm_compute; try reflexivity; try discriminate; auto.

Lemma digit_not_pitch_char (c : ascii) :
  isDigit c = true -> isPitchChar c = false.
Proof. every_char c. Qed.


Lemma upper_letter_origin (c : ascii) :
  isUpper (toUpperChar c) = true -> isLetter c = true.
Proof. every_char c. Qed.

Lemma upper_sharp_origin (c : ascii) :
  toUpperChar c = "#"%char -> c = "#"%char.
Proof. every_char c. Qed.

Lemma span_spec (p : ascii -> bool) (s a b : string) :
  span p s = (a, b) ->
  s = a ++ b /\ allChars p a = true /\
  match b with EmptyString => True | String c _ => p c = false end.
Proof.
  revert a b. induction s as [|c s IH]; simpl; intros a b H.
  - inversion H; subst. auto.
  - destruct (p c) eqn:Hc.
    + destruct (span p s) as [a' b'] eqn:Hs. inversion H; subst.
      destruct (IH a' b eq_refl) as (-> & Ha & Hb).
      simpl. rewrite Hc, Ha. auto.
    + inversion H; subst. simpl. rewrite Hc. auto.
Qed.

Lemma span_append (p : ascii -> bool) (a b : string) :
  allChars p a = true ->
  match b with EmptyString => True | String c _ => p c = false end ->
  span p (a ++ b) = (a, b).
Proof.
  induction a as [|c a IH]; simpl; intros Ha Hb.
  - destruct b as [|c b]; [reflexivity|]. simpl. now rewrite Hb.
  - apply andb_prop in Ha as [Hc Ha]. rewrite Hc, (IH Ha Hb). reflexivity.
Qed.

Example matchPitch_examples :
  matchPitch "A4" = Some ("A", "4") /\
  matchPitch "c#10" = Some ("c#", "10") /\
  matchPitch "Bb3" = Some ("Bb", "3") /\
  matchPitch "4A" = None /\ matchPitch "A" = None /\
  matchPitch "A4 " = None /\ matchPitch "" = None.
Proof. repeat split. Qed.

Example noteMidiOf_examples :
  noteMidiOf "A4" = Some 69%Z /\ noteMidiOf "C4" = Some 60%Z /\
  noteMidiOf "c#5" = Some 73%Z /\ noteMidiOf "A04" = Some 69%Z /\
  noteMidiOf "Bb3" = None /\ noteMidiOf "H2" = None /\ noteMidiOf "E#4" = None.
Proof. repeat split. Qed.

(** The matcher is the regular expression: it succeeds with [(m1, m2)]
    exactly when the token is [m1 ++ m2] with [m1] a non-empty run of
    [[a-zA-Z#]] and [m2] a non-empty run of digits. *)
Lemma matchPitch_spec (pitch m1 m2 : string) :
  matchPitch pitch = Some (m1, m2) <->
  pitch = m1 ++ m2 /\ m1 <> "" /\ m2 <> "" /\
  allChars isPitchChar m1 = true /\ allChars isDigit m2 = true.
Proof.
  unfold matchPitch. split.
  - destruct (span isPitchChar pitch) as [a b] eqn:Hs.
    apply span_spec in Hs as (-> & Ha & _).
    destruct a as [|ca a]; [discriminate|].
    destruct b as [|cb b]; [discriminate|].
    destruct (allChars isDigit (String cb b)) eqn:Hd; [|discriminate].
    intros H; inversion H; subst. repeat split; auto; discriminate.
  - intros (-> & H1 & H2 & Ha & Hd).
    rewrite span_append; auto.
    + destruct m1; [congruence|]. destruct m2; [congruence|]. now rewrite Hd.
    + destruct m2 as [|c m2]; [exact I|]. simpl in Hd.
      apply andb_prop in Hd as [Hc _]. now apply digit_not_pitch_char.
Qed.

Lemma indexOf_found (l : list string) (x : string) (i : Z) :
  indexOfFrom i l x <> (-1)%Z -> In x l.
Proof.
  revert i. induction l as [|y l IH]; simpl; intros i H; [congruence|].
  destruct (String.eqb_spec y x); [now left|right; eauto].
Qed.

(** A name the table knows, once upper-cased, is a letter with at most one
    sharp after it. *)
Lemma table_name_shape (m1 : string) :
  In (toUpperCase m1) notes ->
  exists letter sharp, m1 = String letter sharp /\ isLetter letter = true /\
                       (sharp = "" \/ sharp = "#").
Proof.
  intros H.
  destruct m1 as [|a m1]; [simpl in H; intuition discriminate|].
  exists a, m1.
  assert (Ha : isUpper (toUpperChar a) = true /\
               (m1 = "" \/ toUpperCase m1 = "#")).
  { simpl in H.
    repeat (destruct H as [H|H];
            [ injection H as Ha Hm; rewrite <- Ha; split; [reflexivity|];
              destruct m1 as [|b m1]; [now left | right]; simpl in Hm |- *;
              first [discriminate Hm | exact (eq_sym Hm)] |]).
    contradiction. }
  destruct Ha as [Ha Hm]. split; [reflexivity|]. split; [now apply upper_letter_origin|].
  destruct Hm as [->|Hm]; [now left|right].
  destruct m1 as [|b [|b' m1]]; simpl in Hm; try discriminate.
  injection Hm as Hb. now rewrite (upper_sharp_origin b Hb).
Qed.

Lemma noteMidiOf_parses (pitch : string) (m : Z) :
  noteMidiOf pitch = Some m -> parsesAsPitch pitch.
Proof.
  unfold noteMidiOf.
  destruct (matchPitch pitch) as [[m1 m2]|] eqn:Hm; [|discriminate].
  apply matchPitch_spec in Hm as (-> & _ & H2 & _ & Hd).
  destruct (indexOf notes (toUpperCase m1) =? -1)%Z eqn:Hi; [discriminate|].
  intros _. apply Z.eqb_neq in Hi. apply indexOf_found in Hi.
  destruct (table_name_shape m1 Hi) as (letter & sharp & -> & Hl & Hs).
  exists letter, sharp, m2. simpl. auto.
Qed.








(** C10.  A token whose lower-cased form contains "rest" anywhere makes
    [playTone] return right after its guards: no voice is started and the
    audio context is left as it was, which is what the token "rest" itself
    does; "Crest4" and "ARREST3" are such tokens. *)
Theorem rest_is_a_substring_test (pitch : string) (d t : Q) (e : AudioEngine.t)
    (Hrest : includes (toLowerCase pitch) "rest" = true) :
  playTone pitch d t e = called pitch d t e /\
  ctx (playTone pitch d t e) = ctx e /\
  ctx (playTone pitch d t e) = ctx (playTone "rest" d t e).
Proof.
  assert (H : playTone pitch d t e = called pitch d t e).
  { unfold playTone, isRest. rewrite Hrest.
    destruct (ctx (called pitch d t e)), (gainNode (called pitch d t e)); reflexivity. }
  assert (H' : playTone "rest" d t e = called "rest" d t e).
  { unfold playTone.
    destruct (ctx (called "rest" d t e)), (gainNode (called "rest" d t e)); reflexivity. }
  rewrite H, H'. auto.
Qed.

Lemma rest_is_a_substring_test_witness :
  includes (toLowerCase "Crest4") "rest" = true /\
  includes (toLowerCase "ARREST3") "rest" = true /\
  ctx (playTone "Crest4" 1 0
         (create true (mkContext 0 Suspended []))) =
  ctx (create true (mkContext 0 Suspended [])).
Proof.
  split; [reflexivity | split; [reflexivity|]].
  apply (rest_is_a_substring_test "Crest4" 1 0
           (create true (mkContext 0 Suspended [])) eq_refl).
Defined.

End PitchGrammar.

(** ** Chords *)

Section Chords.
Import JSString AudioEngine.

Lemma playTone_calls (pitch : string) (d t : Q) (e : AudioEngine.t) :
  toneCalls (playTone pitch d t e) = toneCalls e ++ [(pitch, d, t)].
Proof.
  unfold playTone, called. simpl.
  destruct (ctx e), (gainNode e), (isRest pitch); reflexivity.
Qed.

Lemma playTone_gain (pitch : string) (d t : Q) (e : AudioEngine.t) :
  gainNode (playTone pitch d t e) = gainNode e.
Proof.
  unfold playTone, called. simpl.
  destruct (ctx e), (gainNode e), (isRest pitch); reflexivity.
Qed.

Lemma playTone_voices (pitch : string) (d t g : Q) (e : AudioEngine.t) (c : AudioContext) :
  ctx e = Some c -> gainNode e = Some g ->
  exists c', ctx (playTone pitch d t e) = Some c' /\
             currentTime c' = currentTime c /\
             state c' = state c /\
             voices c' = voices c ++ map (fun p => newVoice p d t) (sounding [pitch]).
Proof.
  intros Hc Hg. unfold playTone, sounding. simpl. rewrite Hc, Hg.
  destruct (isRest pitch); simpl.
  - exists c. rewrite app_nil_r. auto.
  - eexists. split; [reflexivity|]. auto.
Qed.

Lemma forEach_playTone (pitches : list string) (d t g : Q) :
  forall (e : AudioEngine.t) (c : AudioContext),
  ctx e = Some c -> gainNode e = Some g ->
  let e' := fold_left (fun e p => playTone p d t e) pitches e in
  toneCalls e' = toneCalls e ++ map (fun p => (p, d, t)) pitches /\
  gainNode e' = Some g /\
  exists c', ctx e' = Some c' /\
             currentTime c' = currentTime c /\
             voices c' = voices c ++ map (fun p => newVoice p d t) (sounding pitches).
Proof.
  induction pitches as [|p ps IH]; intros e c Hc Hg; simpl.
  - rewrite app_nil_r. split; [reflexivity|]. split; [exact Hg|].
    exists c. rewrite app_nil_r. auto.
  - destruct (playTone_voices p d t g e c Hc Hg) as (c1 & Hc1 & Ht1 & _ & Hv1).
    assert (Hg1 : gainNode (playTone p d t e) = Some g)
      by (rewrite playTone_gain; exact Hg).
    destruct (IH _ _ Hc1 Hg1) as (Hcalls & Hgain & c' & Hc' & Ht' & Hv').
    split; [|split; [exact Hgain|]].
    + rewrite Hcalls, playTone_calls, <- app_assoc. reflexivity.
    + exists c'. split; [exact Hc'|]. split; [congruence|].
      rewrite Hv', Hv1, <- app_assoc. f_equal.
      unfold sounding. simpl. destruct (isRest p); reflexivity.
Qed.

(** C6.  On an engine that has its audio context, [playChord] calls
    [playTone] once for each of the N pitches, in order, every call with the
    same start time, the context's [currentTime] read once; the voices it
    starts are those of the pitches that are not rests, and all of them
    start at that one time. *)
Theorem chord_voices_share_start_time (pitches : list string) (d g : Q)
    (e : AudioEngine.t) (c : AudioContext)
    (Hctx : ctx e = Some c) (Hgain : gainNode e = Some g) :
  let e' := playChord pitches d e in
  let calls := map (fun p => (p, d, currentTime c)) pitches in
  toneCalls e' = toneCalls e ++ calls /\
  List.length calls = List.length pitches /\
  exists c', ctx e' = Some c' /\
    voices c' = voices c ++ map (fun p => newVoice p d (currentTime c)) (sounding pitches) /\
    Forall (fun v => osc_start v = currentTime c)
           (map (fun p => newVoice p d (currentTime c)) (sounding pitches)).
Proof.
  intros e' calls. subst e' calls. unfold playChord. rewrite Hctx.
  destruct (forEach_playTone pitches d (currentTime c) g e c Hctx Hgain)
    as (Hcalls & _ & c' & Hc' & _ & Hv').
  split; [exact Hcalls|]. split; [apply length_map|].
  exists c'. split; [exact Hc'|]. split; [exact Hv'|].
  apply Forall_forall. intros v Hv. apply in_map_iff in Hv as (p & <- & _). reflexivity.
Qed.

Lemma chord_voices_share_start_time_witness :
  let e := create true (mkContext (7 # 2) Active []) in
  toneCalls (playChord ["E4"; "rest"; "G4"]%string 1 e) =
  [("E4", 1, 7 # 2); ("rest", 1, 7 # 2); ("G4", 1, 7 # 2)]%string.
Proof.
  intros e. subst e.
  apply (chord_voices_share_start_time ["E4"; "rest"; "G4"]%string 1 (3 # 10)
           (create true (mkContext (7 # 2) Active []))
           (mkContext (7 # 2) Active []) eq_refl eq_refl).
Defined.

End Chords.

(** ** The scheduler *)

Section Scheduler.
Import MusicPlayer.
Variable data : SheetAnalysisResult.

Lemma playFrame_past_end (speed : Q) (index : nat) (st : Player) :
  (List.length (frames data) <= index)%nat ->
  playFrame data speed index st = Ok (setCurrentFrameIndex 0 (setIsPlaying false st)).
Proof.
  intros H. unfold playFrame. apply Nat.leb_le in H. now rewrite H.
Qed.

Lemma playFrame_in_range (speed : Q) (index : nat) (frame : FrameData) (st : Player) :
  nth_error (frames data) index = Some frame ->
  playFrame data speed index st =
  Ok (armTimeout (mkCallback (index + 1) speed) (frameDurationMs data frame speed)
        (withAudio (AudioEngine.playChord (notes frame)
                      (frameDurationSec data frame speed * (95 # 100)))
           (withAudio AudioEngine.resume
              (setCurrentFrameIndex index (noteRead index st))))).
Proof.
  intros H. unfold playFrame.
  assert (Hlt : (index < List.length (frames data))%nat) by (apply nth_error_Some; congruence).
  apply Nat.leb_gt in Hlt. rewrite Hlt, H. reflexivity.
Qed.

(** [playFrame] never throws: the guard keeps the read inside the array. *)
Lemma playFrame_total (speed : Q) (index : nat) (st : Player) :
  exists st', playFrame data speed index st = Ok st'.
Proof.
  destruct (nth_error (frames data) index) as [frame|] eqn:H.
  - rewrite (playFrame_in_range speed index frame st H). eauto.
  - apply nth_error_None in H. rewrite (playFrame_past_end speed index st H). eauto.
Qed.

Lemma playFrame_Inv (speed : Q) (index : nat) (st st' : Player) :
  (1 <= nextTimerId st)%nat ->
  pendingTimers st = [] ->
  isPlaying st = true ->
  Forall (fun i => (i < List.length (frames data))%nat) (frameReads st) ->
  playFrame data speed index st = Ok st' ->
  Inv data st'.
Proof.
  intros Hnext Hpend Hplay Hreads H.
  destruct (nth_error (frames data) index) as [frame|] eqn:Hf.
  - rewrite (playFrame_in_range speed index frame st Hf) in H. injection H as <-.
    assert (Hlt : (index < List.length (frames data))%nat) by (apply nth_error_Some; congruence).
    unfold Inv; simpl. rewrite Hpend, Hplay. repeat split.
    + lia.
    + discriminate.
    + intros _. eexists. split; [reflexivity|]. simpl.
      repeat split; auto. f_equal. lia.
    + apply Forall_app. split; [exact Hreads | constructor; auto].
    + now left.
  - apply nth_error_None in Hf. rewrite (playFrame_past_end speed index st Hf) in H.
    injection H as <-. unfold Inv; simpl. repeat split; auto. discriminate.
Qed.

Lemma clearPending_Inv (st : Player) :
  (1 <= nextTimerId st)%nat ->
  (pendingTimers st = [] \/
   exists t, pendingTimers st = [t] /\ timeoutRef st = Some (timer_id t) /\
             (1 <= timer_id t)%nat) ->
  pendingTimers (clearPending st) = [] /\
  isPlaying (clearPending st) = isPlaying st /\
  currentFrameIndex (clearPending st) = currentFrameIndex st /\
  nextTimerId (clearPending st) = nextTimerId st /\
  frameReads (clearPending st) = frameReads st /\
  playbackSpeed (clearPending st) = playbackSpeed st.
Proof.
  intros Hnext H. unfold clearPending.
  destruct H as [Hp | (t & Hp & Href & Hid)].
  - destruct (timeoutRef st) as [[|i]|]; unfold clearTimeout; simpl;
      rewrite ?Hp; simpl; repeat split; reflexivity.
  - rewrite Href. destruct (timer_id t) as [|i] eqn:Hi; [lia|].
    unfold clearTimeout; simpl. rewrite Hp. simpl. rewrite Hi, Nat.eqb_refl. simpl.
    repeat split; reflexivity.
Qed.

Lemma Inv_pending (st : Player) :
  Inv data st ->
  pendingTimers st = [] \/
  exists t, pendingTimers st = [t] /\ timeoutRef st = Some (timer_id t) /\
            (1 <= timer_id t)%nat.
Proof.
  intros (_ & Hidle & Hrun & _).
  destruct (isPlaying st); [right | left; auto].
  destruct (Hrun eq_refl) as (t & ? & ? & ? & _). eauto.
Qed.

Lemma Inv_mount : Inv data mount.
Proof.
  unfold Inv, mount; simpl. repeat split; auto. discriminate.
Qed.

Lemma fire_inversion (i : nat) (st : Player) (r : result Player) :
  Inv data st -> fire data i st = Some r ->
  exists t, isPlaying st = true /\ pendingTimers st = [t] /\ timer_id t = i /\
            Qle_bool (timer_due t) (clock st) = true /\
            cb_index (timer_callback t) = S (currentFrameIndex st) /\
            r = playFrame data (cb_speed (timer_callback t)) (S (currentFrameIndex st))
                  (clearTimeout i st) /\
            pendingTimers (clearTimeout i st) = [].
Proof.
  intros (_ & Hidle & Hrun & _) H. unfold fire, findTimer in H.
  destruct (isPlaying st) eqn:Hp.
  - destruct (Hrun eq_refl) as (t & Hpend & _ & _ & Hcb & _).
    rewrite Hpend in H. simpl in H.
    destruct (Nat.eqb_spec (timer_id t) i) as [Hi|Hi]; [|discriminate].
    destruct (Qle_bool (timer_due t) (clock st)) eqn:Hdue; [|discriminate].
    injection H as <-. exists t. rewrite Hcb. repeat split; auto.
    simpl. rewrite Hpend. simpl. rewrite Hi, Nat.eqb_refl. reflexivity.
  - rewrite (Hidle eq_refl) in H. discriminate.
Qed.

Lemma step_Inv (ev : event) (st st' : Player) :
  Inv data st -> step data ev st = Some st' -> Inv data st'.
Proof.
  intros HI H. unfold step in H.
  destruct (handle data ev st) as [[st1|e]|] eqn:Hh; try discriminate.
  injection H as <-.
  pose proof HI as (Hnext & Hidle & Hrun & Hreads & Hidx).
  destruct ev; simpl in Hh.
  - (* play / pause *)
    injection Hh as Hh. unfold handlePlayPause in Hh.
    destruct (isPlaying st) eqn:Hp.
    + injection Hh as <-.
      destruct (clearPending_Inv (setIsPlaying false st)) as (H1 & H2 & H3 & H4 & H5 & _);
        [exact Hnext | exact (Inv_pending st HI) |].
      unfold Inv. rewrite H1, H2, H3, H4, H5. simpl.
      repeat split; auto. discriminate.
    + eapply playFrame_Inv; [| | | | exact Hh]; simpl; auto.
  - (* stop *)
    unfold handleStop in Hh. injection Hh as <-.
    destruct (clearPending_Inv (setCurrentFrameIndex 0 (setIsPlaying false st)))
      as (H1 & H2 & H3 & H4 & H5 & _);
      [exact Hnext | exact (Inv_pending st HI) |].
    unfold Inv. rewrite H1, H2, H3, H4, H5. simpl.
    repeat split; auto. discriminate.
  - unfold handleSlower in Hh. injection Hh as <-. exact HI.
  - unfold handleFaster in Hh. injection Hh as <-. exact HI.
  - (* a timer fires *)
    destruct (fire_inversion i st _ HI Hh) as (t & Hp & _ & _ & _ & _ & Hr & Hclr).
    symmetry in Hr. eapply playFrame_Inv; [| | | | exact Hr]; simpl; auto.
  - destruct (Qle_bool 0 dt); [|discriminate].
    injection Hh as <-. exact HI.
Qed.

Lemma run_Inv (evs : list event) :
  forall st st', Inv data st -> run data evs st = Some st' -> Inv data st'.
Proof.
  induction evs as [|ev evs IH]; simpl; intros st st' HI H.
  - injection H as <-. exact HI.
  - destruct (step data ev st) as [st1|] eqn:Hs; [|discriminate].
    eapply IH; [eapply step_Inv; eauto | exact H].
Qed.

Lemma Qdiv_pos (a b : Q) : 0 < a -> 0 < b -> 0 < a / b.
Proof.
  intros Ha Hb. unfold Qdiv. apply Qmult_lt_0_compat; [exact Ha|].
  now apply Qinv_lt_0_compat.
Qed.

Lemma reachable_Inv (st : Player) : reachable data st -> Inv data st.
Proof. intros [evs H]. exact (run_Inv evs _ _ Inv_mount H). Qed.

(** Once nothing is pending, time passing changes neither the session nor
    what is scheduled, and no timer can fire. *)
Lemma passive_step_idle (ev : event) (st st' : Player) :
  pendingTimers st = [] -> passive ev = true ->
  step data ev st = Some st' -> sameSession st st'.
Proof.
  intros Hp Hev H. unfold step in H.
  destruct ev; try discriminate; simpl in H.
  - unfold fire, findTimer in H. rewrite Hp in H. discriminate.
  - destruct (Qle_bool 0 dt); [|discriminate]. injection H as <-.
    unfold sameSession; simpl. repeat split.
    destruct (audioEngine st) as [e|]; [|reflexivity]. simpl.
    destruct (AudioEngine.ctx e); reflexivity.
Qed.

Lemma passive_run_idle (evs : list event) :
  forall st st', pendingTimers st = [] -> forallb passive evs = true ->
                 run data evs st = Some st' -> sameSession st st'.
Proof.
  induction evs as [|ev evs IH]; simpl; intros st st' Hp Hev H.
  - injection H as <-. unfold sameSession. repeat split.
  - apply andb_prop in Hev as [Hev Hevs].
    destruct (step data ev st) as [st1|] eqn:Hs; [|discriminate].
    pose proof (passive_step_idle ev st st1 Hp Hev Hs) as H1.
    assert (Hp1 : pendingTimers st1 = []) by (destruct H1 as (_&_&_&_&->&_); exact Hp).
    pose proof (IH st1 st' Hp1 Hevs H) as H2.
    unfold sameSession in *.
    destruct H1 as (a1&a2&a3&a4&a5&a6&a7&a8), H2 as (b1&b2&b3&b4&b5&b6&b7&b8).
    repeat split; congruence.
Qed.

Lemma no_timer_fires_when_idle (i : nat) (st : Player) :
  pendingTimers st = [] -> step data (TimerFires i) st = None.
Proof.
  intros Hp. unfold step. simpl. unfold fire, findTimer. rewrite Hp. reflexivity.
Qed.

(** C1.  Pausing a playing session cancels the advance timer before the
    handler returns and keeps [currentFrameIndex]; afterwards, with no
    transport call, time can pass for as long as one likes, no timer can
    fire, the index, the reads of the frames and the notes played stay as
    they were, and pressing play resumes from that same frame. *)
Theorem pause_freezes_playback (st : Player)
    (Hreach : reachable data st) (Hrun : isPlaying st = true) :
  exists paused,
    handlePlayPause data st = Ok paused /\
    isPlaying paused = false /\
    pendingTimers paused = [] /\
    currentFrameIndex paused = currentFrameIndex st /\
    (forall dt, 0 <= dt -> exists later, step data (Elapse dt) paused = Some later) /\
    (forall evs later,
        forallb passive evs = true -> run data evs paused = Some later ->
        sameSession paused later /\
        currentFrameIndex later = currentFrameIndex st /\
        (forall i, step data (TimerFires i) later = None) /\
        exists resumed frame,
          nth_error (frames data) (currentFrameIndex st) = Some frame /\
          handlePlayPause data later = Ok resumed /\
          isPlaying resumed = true /\
          currentFrameIndex resumed = currentFrameIndex st).
Proof.
  pose proof (reachable_Inv st Hreach) as HI.
  pose proof HI as (Hnext & _ & Hplaying & _ & _).
  destruct (Hplaying Hrun) as (t & Hpend & Href & Hid & _ & Hlt).
  destruct (clearPending_Inv (setIsPlaying false st) Hnext (Inv_pending st HI))
    as (H1 & H2 & H3 & _).
  exists (clearPending (setIsPlaying false st)).
  split; [unfold handlePlayPause; now rewrite Hrun|].
  split; [rewrite H2; reflexivity|].
  split; [exact H1|].
  split; [rewrite H3; reflexivity|].
  split.
  - intros dt Hdt. unfold step. simpl.
    apply Qle_bool_iff in Hdt. rewrite Hdt. eauto.
  - intros evs later Hev Hr.
    pose proof (passive_run_idle evs _ _ H1 Hev Hr) as Hs.
    pose proof Hs as (Sp & Si & _ & _ & Spend & _).
    rewrite H1 in Spend. rewrite H2 in Sp. rewrite H3 in Si. simpl in Sp, Si.
    split; [exact Hs|]. split; [exact Si|].
    split; [intros i; now apply no_timer_fires_when_idle|].
    destruct (nth_error (frames data) (currentFrameIndex st)) as [frame|] eqn:Hf;
      [|apply nth_error_None in Hf; lia].
    eexists. exists frame. split; [reflexivity|].
    unfold handlePlayPause. rewrite Sp, Si.
    rewrite (playFrame_in_range _ _ frame _ Hf).
    split; [reflexivity|]. simpl. auto.
Qed.

(** C4.  While the last frame plays, the pending timer is the one for the
    index past the end; once it is due and fires, [playFrame] takes its
    early return without throwing: playing stops, the index is back at 0,
    nothing is scheduled, and the frames were not read at all, so not at
    [frames.length]. *)
Theorem last_frame_auto_stops (st : Player)
    (Hreach : reachable data st) (Hrun : isPlaying st = true)
    (Hlast : S (currentFrameIndex st) = List.length (frames data)) :
  (forall speed st0,
      playFrame data speed (List.length (frames data)) st0 =
      Ok (setCurrentFrameIndex 0 (setIsPlaying false st0))) /\
  exists t,
    pendingTimers st = [t] /\
    cb_index (timer_callback t) = List.length (frames data) /\
    forall dt, Qmax 0 (timer_due t - clock st) <= dt ->
      exists stopped,
        run data [Elapse dt; TimerFires (timer_id t)] st = Some stopped /\
        isPlaying stopped = false /\
        currentFrameIndex stopped = 0%nat /\
        pendingTimers stopped = [] /\
        frameReads stopped = frameReads st /\
        ~ In (List.length (frames data)) (frameReads stopped).
Proof.
  split; [intros speed st0; now apply playFrame_past_end|].
  pose proof (reachable_Inv st Hreach) as (_ & _ & Hplaying & Hreads & _).
  destruct (Hplaying Hrun) as (t & Hpend & _ & _ & Hcb & _).
  exists t. split; [exact Hpend|]. split; [congruence|].
  intros dt Hdt.
  assert (H0 : 0 <= dt) by (eapply Qle_trans; [apply Q.le_max_l | exact Hdt]).
  assert (Hdue : timer_due t <= clock st + dt).
  { assert (timer_due t - clock st <= dt)
      by (eapply Qle_trans; [apply Q.le_max_r | exact Hdt]).
    Lqa.lra. }
  apply Qle_bool_iff in H0, Hdue.
  simpl. unfold step at 1. simpl. rewrite H0.
  unfold step. simpl. unfold fire, findTimer. simpl. rewrite Hpend. simpl.
  rewrite Nat.eqb_refl, Hdue, Hcb, Hlast.
  rewrite playFrame_past_end by lia.
  eexists. split; [reflexivity|]. simpl. rewrite Hpend. simpl.
  rewrite Nat.eqb_refl. simpl. repeat split.
  intros Hin. rewrite Forall_forall in Hreads. specialize (Hreads _ Hin). lia.
Qed.

(** C3.  With a positive tempo, frame duration and speed, the timer that
    [playFrame] arms for a frame waits [(60 / tempo) * duration / speed]
    seconds (in ms), the chord sounds for 0.95 of that, the time is
    positive, it doubles when the speed is halved and it halves when the
    tempo is doubled. *)
Theorem frame_wall_clock_duration (speed : Q) (index : nat) (frame : FrameData)
    (st : Player)
    (Htempo : 0 < tempo data) (Hdur : 0 < duration frame) (Hspeed : 0 < speed)
    (Hframe : nth_error (frames data) index = Some frame) :
  (exists st' t,
      playFrame data speed index st = Ok st' /\
      pendingTimers st' = pendingTimers st ++ [t] /\
      timer_delay t == ((60 / tempo data) * duration frame / speed) * 1000 /\
      audioEngine st' =
      option_map (fun e => AudioEngine.playChord (notes frame)
                             (frameDurationSec data frame speed * (95 # 100))
                             (AudioEngine.resume e))
                 (audioEngine st)) /\
  frameDurationSec data frame speed == (60 / tempo data) * duration frame / speed /\
  0 < frameDurationSec data frame speed /\
  frameDurationSec data frame (speed / 2) == 2 * frameDurationSec data frame speed /\
  frameDurationSec (mkResult (2 * tempo data) (frames data)) frame speed ==
  frameDurationSec data frame speed / 2.
Proof.
  split; [|split; [|split; [|split]]].
  - eexists. eexists. split; [apply (playFrame_in_range _ _ frame _ Hframe)|].
    simpl. split; [reflexivity|]. split; [reflexivity|].
    destruct (audioEngine st); reflexivity.
  - reflexivity.
  - unfold frameDurationSec, beatDurationSec.
    apply Qdiv_pos; [|exact Hspeed].
    apply Qmult_lt_0_compat; [|exact Hdur]. apply Qdiv_pos; [Lqa.lra | exact Htempo].
  - unfold frameDurationSec, beatDurationSec. field. split; Lqa.lra.
  - unfold frameDurationSec, beatDurationSec. simpl. field. split; Lqa.lra.
Qed.

(** A speed button changes [playbackSpeed] and nothing that is scheduled. *)
Lemma speed_buttons_keep_timers (ev : event) (st st' : Player) :
  ev = ClickSlower \/ ev = ClickFaster ->
  step data ev st = Some st' ->
  pendingTimers st' = pendingTimers st /\ timeoutRef st' = timeoutRef st /\
  isPlaying st' = isPlaying st /\ currentFrameIndex st' = currentFrameIndex st.
Proof.
  intros [-> | ->] H; unfold step in H; simpl in H; injection H as <-; simpl; auto.
Qed.

(** The tick after a timer fires is scheduled with the speed its callback
    captured, whatever [playbackSpeed] is by then. *)
Lemma tick_uses_captured_speed (st : Player) (t : Timer) (frame : FrameData) :
  pendingTimers st = [t] ->
  timer_due t <= clock st ->
  nth_error (frames data) (cb_index (timer_callback t)) = Some frame ->
  exists st' t',
    step data (TimerFires (timer_id t)) st = Some st' /\
    pendingTimers st' = [t'] /\
    playbackSpeed st' = playbackSpeed st /\
    timer_delay t' = frameDurationMs data frame (cb_speed (timer_callback t)) /\
    cb_speed (timer_callback t') = cb_speed (timer_callback t).
Proof.
  intros Hp Hdue Hf. apply Qle_bool_iff in Hdue.
  unfold step. simpl. unfold fire, findTimer. rewrite Hp. simpl.
  rewrite Nat.eqb_refl, Hdue. rewrite (playFrame_in_range _ _ frame _ Hf).
  eexists. eexists. split; [reflexivity|]. simpl. rewrite Hp. simpl.
  rewrite Nat.eqb_refl. simpl. auto.
Qed.

(** C8, as the code has it.  No floor is applied to a frame's duration.
    With a positive tempo and speed the wall-clock time [playFrame] computes
    for a frame is [(60 / tempo) * duration / speed * 1000] milliseconds: it
    is positive exactly when the frame's duration is, zero when the duration
    is zero and negative when it is negative.  For a duration that is not
    negative, and pitches within the float range, the advance timer is armed
    with exactly that delay, a delay of zero for a duration of zero.  (For a
    negative duration the Web Audio calls of [playChord], which run before
    [setTimeout], may throw; nothing is said of the timer then.) *)
Theorem timer_delay_follows_duration (speed : Q) (index : nat) (frame : FrameData)
    (st : Player)
    (Htempo : 0 < tempo data) (Hspeed : 0 < speed)
    (Hframe : nth_error (frames data) index = Some frame) :
  let durationMs := frameDurationMs data frame speed in
  durationMs == (60 / tempo data) * duration frame / speed * 1000 /\
  (0 < durationMs <-> 0 < duration frame) /\
  (durationMs == 0 <-> duration frame == 0) /\
  (durationMs < 0 <-> duration frame < 0) /\
  (0 <= duration frame ->
   forallb Shapes.finitePitch (notes frame) = true ->
   exists st' t,
     playFrame data speed index st = Ok st' /\
     pendingTimers st' = pendingTimers st ++ [t] /\
     timer_delay t = durationMs /\
     0 <= timer_delay t /\
     (timer_delay t == 0 <-> duration frame == 0)).
Proof.
  cbv zeta.
  assert (Hk : 0 < 60 / tempo data / speed * 1000).
  { apply Qmult_lt_0_compat; [|Lqa.lra]. apply Qdiv_pos; [|exact Hspeed].
    apply Qdiv_pos; [Lqa.lra | exact Htempo]. }
  assert (He : frameDurationMs data frame speed ==
               duration frame * (60 / tempo data / speed * 1000)).
  { unfold frameDurationMs, frameDurationSec, beatDurationSec. field. split; Lqa.lra. }
  assert (Hf : frameDurationMs data frame speed ==
               (60 / tempo data) * duration frame / speed * 1000).
  { unfold frameDurationMs, frameDurationSec, beatDurationSec. reflexivity. }
  split; [exact Hf|].
  set (k := 60 / tempo data / speed * 1000) in *.
  split; [rewrite He; split; intros H; Lqa.nra|].
  split; [rewrite He; split; intros H; Lqa.nra|].
  split; [rewrite He; split; intros H; Lqa.nra|].
  intros Hd _. eexists. eexists.
  split; [apply (playFrame_in_range _ _ frame _ Hframe)|].
  split; [reflexivity|]. cbn [timer_delay]. split; [reflexivity|].
  rewrite He. split; [Lqa.nra|]. split; intros H; Lqa.nra.
Qed.

End Scheduler.

Section SchedulerScenarios.
Import MusicPlayer Samples Claims.

Ltac evaluate := vm_compute; reflexivity.

Lemma playingScenario_reachable : reachable scenario playingScenario.
Proof. exists [ClickPlayPause]. evaluate. Qed.

Lemma lastFrameOfScenario_reachable : reachable scenario lastFrameOfScenario.
Proof.
  exists [ClickPlayPause; Elapse 500; TimerFires 1; Elapse 250; TimerFires 2].
  evaluate.
Qed.

(** The spec's scenario: 0.5 s, 0.25 s and 1 s at speed 1. *)
Example scenario_durations :
  map (fun f => Qred (frameDurationSec scenario f 1)) (frames scenario) =
  [1 # 2; 1 # 4; 1].
Proof. evaluate. Qed.

(** Left alone, the scenario does advance when its timer is due. *)
Example scenario_advances :
  option_map currentFrameIndex
    (run scenario [ClickPlayPause; Elapse 500; TimerFires 1] mount) = Some 1%nat.
Proof. evaluate. Qed.

(** Paused and left for ten seconds, it stays on its frame, and the timer
    that was armed can no longer fire. *)
Example scenario_paused :
  option_map currentFrameIndex
    (run scenario [ClickPlayPause; ClickPlayPause; Elapse 10000] mount) = Some 0%nat /\
  run scenario [ClickPlayPause; ClickPlayPause; Elapse 10000; TimerFires 1] mount = None.
Proof. split; evaluate. Qed.

Lemma pause_freezes_playback_witness :
  reachable scenario playingScenario /\
  isPlaying playingScenario = true /\
  exists paused,
    handlePlayPause scenario playingScenario = Ok paused /\
    isPlaying paused = false /\
    pendingTimers paused = [] /\
    currentFrameIndex paused = currentFrameIndex playingScenario.
Proof.
  assert (Hreach : reachable scenario playingScenario)
    by (exists [ClickPlayPause]; vm_compute; reflexivity).
  assert (Hrun : isPlaying playingScenario = true) by (vm_compute; reflexivity).
  split; [exact Hreach|]. split; [exact Hrun|].
  destruct (pause_freezes_playback scenario playingScenario Hreach Hrun)
    as (paused & H1 & H2 & H3 & H4 & _).
  exists paused. auto.
Defined.

Lemma last_frame_auto_stops_witness :
  reachable scenario lastFrameOfScenario /\
  isPlaying lastFrameOfScenario = true /\
  S (currentFrameIndex lastFrameOfScenario) = List.length (frames scenario) /\
  forall speed st0,
    playFrame scenario speed (List.length (frames scenario)) st0 =
    Ok (setCurrentFrameIndex 0 (setIsPlaying false st0)).
Proof.
  assert (Hreach : reachable scenario lastFrameOfScenario)
    by (exists [ClickPlayPause; Elapse 500; TimerFires 1; Elapse 250; TimerFires 2];
        vm_compute; reflexivity).
  assert (Hrun : isPlaying lastFrameOfScenario = true) by (vm_compute; reflexivity).
  assert (Hlast : S (currentFrameIndex lastFrameOfScenario) =
                  List.length (frames scenario)) by (vm_compute; reflexivity).
  split; [exact Hreach|]. split; [exact Hrun|]. split; [exact Hlast|].
  exact (proj1 (last_frame_auto_stops scenario lastFrameOfScenario Hreach Hrun Hlast)).
Defined.

Lemma frame_wall_clock_duration_witness :
  0 < tempo scenario /\
  frameDurationSec scenario (mkFrame "frame-2" (Some 0%nat) ["E4"; "G4"]%string 2 page None) 1
  == (60 / 120) * 2 / 1.
Proof.
  assert (Htempo : 0 < tempo scenario) by (vm_compute; reflexivity).
  assert (Hdur : 0 < 2) by (vm_compute; reflexivity).
  assert (Hspeed : 0 < 1) by (vm_compute; reflexivity).
  split; [exact Htempo|].
  exact (proj1 (proj2 (frame_wall_clock_duration scenario 1 2
                         (mkFrame "frame-2" (Some 0%nat) ["E4"; "G4"]%string 2 page None)
                         mount Htempo Hdur Hspeed eq_refl))).
Defined.

(** C7, on the code.  Two one-beat frames at tempo 120: play at speed 1,
    press the faster button while the first frame sounds (the speed shown
    is now 1.25), let the timer fire.  The second frame is scheduled for
    500 ms, its duration at the old speed 1, not for the 400 ms that the
    current speed gives. *)
Theorem next_tick_keeps_old_speed :
  exists st t,
    run twoBeats [ClickPlayPause; ClickFaster; Elapse 500; TimerFires 1] mount = Some st /\
    pendingTimers st = [t] /\
    currentFrameIndex st = 1%nat /\
    nth_error (frames twoBeats) 1 = Some secondBeat /\
    playbackSpeed st == 125 # 100 /\
    timer_delay t == 500 /\
    frameDurationMs twoBeats secondBeat (playbackSpeed st) == 400.
Proof.
  eexists. eexists. split; [evaluate|]. split; [reflexivity|].
  repeat split.
Qed.

(** Pausing and playing again does pick the new speed up: the first frame
    is then scheduled for 400 ms. *)
Example replay_picks_up_speed :
  option_map (fun st => map (fun t => Qred (timer_delay t)) (pendingTimers st))
    (run twoBeats [ClickPlayPause; ClickFaster; ClickPlayPause; ClickPlayPause] mount)
  = Some [400].
Proof. evaluate. Qed.

(** C8 as stated fails: a frame of duration 0 arms a timer of delay 0. *)
Lemma zero_duration_arms_zero_delay :
  ~ armsOnlyPositiveDelays stalled 1 0 mount.
Proof.
  intros H.
  assert (E : playFrame stalled 1 0 mount =
              Ok (match playFrame stalled 1 0 mount with Ok st => st | Throw _ => mount end))
    by evaluate.
  specialize (H _ E).
  assert (D : map (fun t => Qred (timer_delay t))
                (pendingTimers
                   (match playFrame stalled 1 0 mount with Ok st => st | Throw _ => mount end))
              = [0]) by evaluate.
  destruct (pendingTimers _) as [|t ts]; [discriminate|].
  inversion H as [|? ? Hd _]. injection D as D _.
  apply (Qlt_irrefl 0). rewrite <- D at 2. now rewrite Qred_correct.
Qed.

Lemma timer_delay_follows_duration_witness :
  0 < tempo stalled /\
  frameDurationMs stalled (mkFrame "frame-0" (Some 0%nat) ["C4"]%string 0 page None) 1
  == 0 /\
  exists st' t,
    playFrame stalled 1 0 mount = Ok st' /\
    pendingTimers st' = [t] /\ timer_delay t == 0.
Proof.
  assert (Htempo : 0 < tempo stalled) by (vm_compute; reflexivity).
  assert (Hspeed : 0 < 1) by (vm_compute; reflexivity).
  assert (Hd : 0 <= 0) by (vm_compute; discriminate).
  split; [exact Htempo|].
  destruct (timer_delay_follows_duration stalled 1 0
              (mkFrame "frame-0" (Some 0%nat) ["C4"]%string 0 page None) mount
              Htempo Hspeed eq_refl)
    as (_ & _ & H3 & _ & H5).
  split; [apply H3; vm_compute; reflexivity|].
  destruct (H5 Hd eq_refl) as (st' & t & H1 & H2 & _ & _ & H6).
  exists st', t. split; [exact H1|]. split; [exact H2|].
  apply H6. vm_compute. reflexivity.
Defined.

End SchedulerScenarios.

(** ** The renderer *)

Section Highlights.
Import Renderer Samples Shapes Claims.


Lemma displayWidthOf_pos (img : Image) (c_ymin c_xmin c_ymax c_xmax : Q) :
  0 < naturalWidth img -> 0 < naturalHeight img ->
  c_xmin < c_xmax -> c_ymin < c_ymax ->
  0 < displayWidthOf img (c_ymin, c_xmin, c_ymax, c_xmax).
Proof.
  intros Hnw Hnh Hw Hh. unfold displayWidthOf, displayHeight.
  apply Qmult_lt_0_compat; [Lqa.lra|].
  apply Qdiv_pos; (apply Qmult_lt_0_compat; [apply Qdiv_pos; Lqa.lra | assumption]).
Qed.

(** Below 2^31 the canvas keeps the integer part of the size it is given. *)
Lemma assignDimension_floor (default : Z) (x : Q) :
  0 <= x -> x < 2147483648 ->
  assignDimension default x = inject_Z (Qfloor x) /\
  inject_Z (Qfloor x) <= x /\ x < inject_Z (Qfloor x) + 1.
Proof.
  intros H0 Hx.
  assert (Hlo : (0 <= Qfloor x)%Z) by exact (Qfloor_resp_le 0 x H0).
  assert (Hhi : (Qfloor x < 2147483648)%Z).
  { rewrite Zlt_Qlt. eapply Qle_lt_trans; [apply Qfloor_le | exact Hx]. }
  split; [|split; [apply Qfloor_le|]].
  - unfold assignDimension, truncate.
    apply Qle_bool_iff in H0. rewrite H0.
    rewrite Z.mod_small by (change (2 ^ 32)%Z with 4294967296%Z; lia).
    destruct (Z.leb_spec (Qfloor x) 2147483647); [reflexivity | lia].
  - pose proof (Qlt_floor x) as H. rewrite inject_Z_plus in H. exact H.
Qed.

Lemma fraction_nonneg (a b w : Q) : 0 <= a -> 0 < b -> 0 <= w -> 0 <= a / b * w.
Proof.
  intros Ha Hb Hw.
  assert (H : 0 <= a / b) by (apply Qle_shift_div_l; [exact Hb | Lqa.lra]).
  Lqa.nra.
Qed.

(** A box with its bounds in order gets a corner radius that is not
    negative, so its [roundRect] is accepted. *)
Lemma upright_radius (c_ymin c_xmin c_ymax c_xmax displayWidth : Q) (b : Box) :
  c_xmin < c_xmax -> c_ymin < c_ymax -> 0 <= displayWidth -> upright b ->
  0 <= cornerRadius (mapHighlight (c_ymin, c_xmin, c_ymax, c_xmax) displayWidth b).
Proof.
  intros Hw Hh Hd Hb. destruct b as [[[n_ymin n_xmin] n_ymax] n_xmax].
  destruct Hb as [Hx Hy]. unfold mapHighlight, cornerRadius. cbv beta iota zeta.
  assert (HW : 0 <= (n_xmax - n_xmin) / (c_xmax - c_xmin) * displayWidth)
    by (apply fraction_nonneg; Lqa.lra).
  assert (HH : 0 <= (n_ymax - n_ymin) / (c_ymax - c_ymin) * displayHeight)
    by (apply fraction_nonneg; unfold displayHeight; Lqa.lra).
  apply Q.min_glb; [Lqa.lra|]. apply Q.min_glb.
  - apply Qle_shift_div_l; Lqa.lra.
  - apply Qle_shift_div_l; Lqa.lra.
Qed.

Lemma drawHighlights_upright (c_ymin c_xmin c_ymax c_xmax displayWidth : Q)
    (boxes : list Box) :
  c_xmin < c_xmax -> c_ymin < c_ymax -> 0 <= displayWidth -> Forall upright boxes ->
  drawHighlights (c_ymin, c_xmin, c_ymax, c_xmax) displayWidth boxes =
  Ok (flat_map (drawHighlight (c_ymin, c_xmin, c_ymax, c_xmax) displayWidth) boxes).
Proof.
  intros Hw Hh Hd Hall. induction Hall as [|b bs Hb _ IH]; [reflexivity|].
  cbn [drawHighlights flat_map].
  pose proof (upright_radius c_ymin c_xmin c_ymax c_xmax displayWidth b Hw Hh Hd Hb) as Hr.
  apply Qle_bool_iff in Hr. rewrite Hr, IH. reflexivity.
Qed.

(** What [drawFrame] leaves when the frame, its decoded page and a 2d context
    are there and no note box is inverted. *)
Lemma drawFrame_drawn
    (data : SheetAnalysisResult) (images : list Image) (cv : Canvas)
    (index : nat) (frame : FrameData) (img : Image)
    (c_ymin c_xmin c_ymax c_xmax : Q) :
  nth_error (frames data) index = Some frame ->
  nth_error images (match pageIndex frame with Some i => i | None => 0%nat end) = Some img ->
  complete img = true -> has2d cv = true ->
  0 < naturalWidth img -> 0 < naturalHeight img ->
  box_2d frame = (c_ymin, c_xmin, c_ymax, c_xmax) ->
  c_xmin < c_xmax -> c_ymin < c_ymax ->
  Forall upright (match note_coordinates frame with Some l => l | None => [] end) ->
  let displayWidth := displayWidthOf img (box_2d frame) in
  let w := assignDimension 300 displayWidth in
  drawFrame data images (Some cv) index =
  Ok (Some (mkCanvas w 400 true
              ([ClearRect 0 0 w 400;
                DrawImage (match pageIndex frame with Some i => i | None => 0%nat end)
                  (c_xmin / 1000 * naturalWidth img) (c_ymin / 1000 * naturalHeight img)
                  ((c_xmax - c_xmin) / 1000 * naturalWidth img)
                  ((c_ymax - c_ymin) / 1000 * naturalHeight img) 0 0 w 400] ++
               flat_map (drawHighlight (box_2d frame) displayWidth)
                 (match note_coordinates frame with Some l => l | None => [] end)))).
Proof.
  intros Hframe Himg Hcomplete H2d Hnw Hnh Hregion Hw Hh Hup.
  pose proof (displayWidthOf_pos img c_ymin c_xmin c_ymax c_xmax Hnw Hnh Hw Hh) as Hpos.
  cbv zeta. unfold drawFrame. rewrite Hframe, Himg, Hcomplete, H2d, Hregion in *.
  cbv beta iota zeta. cbn [negb].
  change (assignDimension 150 displayHeight) with 400.
  destruct (note_coordinates frame) as [[|b bs]|]; try reflexivity.
  rewrite (drawHighlights_upright c_ymin c_xmin c_ymax c_xmax _ (b :: bs) Hw Hh
             (Qlt_le_weak _ _ Hpos) Hup).
  reflexivity.
Qed.




End Highlights.

(** ** Ingestion *)

Section Ingestion.
Import MusicPlayer GeminiService App Samples Claims.
Local Open Scope string_scope.

Lemma assignIds_length (dateNow : nat -> N) (fs : list FrameData) :
  forall i, List.length (assignIds dateNow i fs) = List.length fs.
Proof. induction fs as [|f fs IH]; simpl; intros i; [reflexivity | now rewrite IH]. Qed.

(** What makes [analyzeSheetMusic] throw. *)
Lemma analyzeSheetMusic_throws (apiKey : bool) (response : result (option string))
    (parse : string -> option Payload) (dateNow : nat -> N) :
  (exists e, analyzeSheetMusic apiKey response parse dateNow = Throw e) <->
  apiKey = false \/
  (exists e, response = Throw e) \/
  response = Ok None \/ response = Ok (Some "") \/
  (exists text, response = Ok (Some text) /\
                (parse text = None \/
                 exists p, parse text = Some p /\ p_frames p = None)).
Proof.
  unfold analyzeSheetMusic. split.
  - intros [e H]. destruct apiKey; [|now left]. right. simpl in H.
    destruct response as [[text|]|e']; [| now right; left | left; eauto].
    destruct text as [|c text]; [now right; right; left|].
    right; right; right. exists (String c text). split; [reflexivity|].
    destruct (parse (String c text)) as [p|]; [|now left].
    right. exists p. split; [reflexivity|].
    destruct (p_frames p); [discriminate | reflexivity].
  - intros [-> | H]; [simpl; eauto|].
    destruct apiKey; [|simpl; eauto]. simpl.
    destruct H as [[e ->] | [-> | [-> | (text & -> & H)]]]; eauto.
    destruct text as [|c text]; [eauto|].
    destruct H as [-> | (p & -> & ->)]; eauto.
Qed.

(** C2 as stated fails: no frames and tempo 0 are accepted. *)
Lemma empty_payload_is_accepted : ~ rejectsDegenerate emptyPayload.
Proof.
  intros H.
  destruct (H (or_introl eq_refl) "{}" ["data:image/png;base64,AA"] (fun _ => 0%N))
    as [Hs _]; [discriminate|].
  vm_compute in Hs. discriminate.
Qed.

(** C2, as the code has it.  A response whose text parses to a value with a
    [frames] array is accepted whatever the tempo and however many frames
    there are, none included: the frames get their local ids, the
    application turns READY and the player is mounted on frame 0, not
    playing.  When [analyzeSheetMusic] throws, the application is in ERROR
    and there is no session. *)
Theorem load_accepts_any_frames_array
    (p : Payload) (fs : list FrameData) (text : string) (srcs : list string)
    (parse : string -> option Payload) (dateNow : nat -> N)
    (Htext : text <> "") (Hparse : parse text = Some p)
    (Hframes : p_frames p = Some fs) (Hsrcs : srcs <> []) :
  let analysis := analyzeSheetMusic true (Ok (Some text)) parse dateNow in
  (exists data,
      analysis = Ok data /\
      tempo data = p_tempo p /\
      frames data = assignIds dateNow 0 fs /\
      List.length (frames data) = List.length fs /\
      status (handleFilesSelect (Some srcs) analysis initial) = READY /\
      session (handleFilesSelect (Some srcs) analysis initial) = Some (data, mount) /\
      currentFrameIndex mount = 0%nat /\ isPlaying mount = false) /\
  (forall e, status (handleFilesSelect (Some srcs) (Throw e) initial) = ERROR /\
             session (handleFilesSelect (Some srcs) (Throw e) initial) = None).
Proof.
  intros analysis. subst analysis. split.
  - exists (mkResult (p_tempo p) (assignIds dateNow 0 fs)).
    unfold analyzeSheetMusic. simpl.
    destruct text as [|c text]; [congruence|]. rewrite Hparse, Hframes.
    destruct srcs as [|src srcs]; [congruence|].
    simpl. rewrite assignIds_length. repeat split.
  - intros e. split; reflexivity.
Qed.

Lemma load_accepts_any_frames_array_witness :
  p_frames emptyPayload = Some [] /\
  exists data,
    analyzeSheetMusic true (Ok (Some "{}")) (fun _ => Some emptyPayload) (fun _ => 0%N)
    = Ok data /\
    frames data = [] /\ tempo data = 0.
Proof.
  split; [reflexivity|].
  destruct (load_accepts_any_frames_array emptyPayload [] "{}"
              ["data:image/png;base64,AA"]
              (fun _ => Some emptyPayload) (fun _ => 0%N)
              ltac:(discriminate) eq_refl eq_refl ltac:(discriminate))
    as [(data & H1 & H2 & H3 & _) _].
  exists data. auto.
Defined.

End Ingestion.

(** * Further properties of the code *)

(** ** The scheduler, continued *)

Section SchedulerInvariants.
Import MusicPlayer PlayerView Shapes.
Variable data : SheetAnalysisResult.

Lemma playFrame_cases (speed : Q) (index : nat) (st : Player) :
  ((List.length (frames data) <= index)%nat /\
   playFrame data speed index st = Ok (setCurrentFrameIndex 0 (setIsPlaying false st))) \/
  (exists frame,
      nth_error (frames data) index = Some frame /\
      playFrame data speed index st =
      Ok (armTimeout (mkCallback (index + 1) speed) (frameDurationMs data frame speed)
            (withAudio (AudioEngine.playChord (notes frame)
                          (frameDurationSec data frame speed * (95 # 100)))
               (withAudio AudioEngine.resume
                  (setCurrentFrameIndex index (noteRead index st)))))).
Proof.
  destruct (nth_error (frames data) index) as [frame|] eqn:H.
  - right. exists frame. split; [reflexivity|]. now apply playFrame_in_range.
  - left. apply nth_error_None in H. split; [exact H|]. now apply playFrame_past_end.
Qed.

Lemma clearPending_fields (st : Player) :
  isPlaying (clearPending st) = isPlaying st /\
  currentFrameIndex (clearPending st) = currentFrameIndex st /\
  playbackSpeed (clearPending st) = playbackSpeed st /\
  audioEngine (clearPending st) = audioEngine st /\
  frameReads (clearPending st) = frameReads st /\
  clock (clearPending st) = clock st.
Proof.
  unfold clearPending. destruct (timeoutRef st) as [[|i]|]; simpl; repeat split.
Qed.

(** The state a handled event leads to, event by event. *)
Lemma step_inversion (ev : event) (st st' : Player) :
  step data ev st = Some st' ->
  match ev with
  | ClickPlayPause =>
      if isPlaying st then st' = clearPending (setIsPlaying false st)
      else playFrame data (playbackSpeed st) (currentFrameIndex st)
             (setIsPlaying true st) = Ok st'
  | ClickStop => st' = clearPending (setCurrentFrameIndex 0 (setIsPlaying false st))
  | ClickSlower =>
      st' = setPlaybackSpeed (Qmax (25 # 100) (playbackSpeed st - (25 # 100))) st
  | ClickFaster =>
      st' = setPlaybackSpeed (Qmin 2 (playbackSpeed st + (25 # 100))) st
  | TimerFires i =>
      exists t, findTimer i st = Some t /\
                Qle_bool (timer_due t) (clock st) = true /\
                playFrame data (cb_speed (timer_callback t)) (cb_index (timer_callback t))
                  (clearTimeout i st) = Ok st'
  | Elapse dt => Qle_bool 0 dt = true /\ st' = elapse dt st
  end.
Proof.
  unfold step. destruct ev; simpl.
  - unfold handlePlayPause. destruct (isPlaying st).
    + intros H; now injection H as <-.
    + destruct (playFrame _ _ _ _); [intros H; now injection H as <- | discriminate].
  - intros H; now injection H as <-.
  - intros H; now injection H as <-.
  - intros H; now injection H as <-.
  - unfold fire. destruct (findTimer i st) as [t|]; [|discriminate].
    destruct (Qle_bool (timer_due t) (clock st)) eqn:Hd; [|discriminate].
    destruct (playFrame _ _ _ _) eqn:Hp; [|discriminate].
    intros H; injection H as <-. exists t. auto.
  - destruct (Qle_bool 0 dt); [|discriminate]. intros H; now injection H as <-.
Qed.

Lemma run_app (evs1 evs2 : list event) :
  forall st,
    run data (evs1 ++ evs2) st =
    match run data evs1 st with
    | Some st1 => run data evs2 st1
    | None => None
    end.
Proof.
  induction evs1 as [|ev evs1 IH]; simpl; intros st; [reflexivity|].
  destruct (step data ev st); [apply IH | reflexivity].
Qed.

Lemma reachable_run (evs : list event) (st st' : Player) :
  reachable data st -> run data evs st = Some st' -> reachable data st'.
Proof.
  intros [evs0 H0] H. exists (evs0 ++ evs). now rewrite run_app, H0.
Qed.

(** An invariant of [step] that holds at [mount] holds of every reachable
    state. *)
Lemma reachable_ind (P : Player -> Prop) :
  P mount ->
  (forall ev st st', reachable data st -> P st -> step data ev st = Some st' -> P st') ->
  forall st, reachable data st -> P st.
Proof.
  intros H0 Hstep st [evs Hrun].
  assert (G : forall evs st0, reachable data st0 -> P st0 ->
                              run data evs st0 = Some st -> P st).
  { clear evs Hrun. induction evs as [|ev evs IH]; simpl; intros st0 Hr Hp H.
    - now injection H as <-.
    - destruct (step data ev st0) as [st1|] eqn:Hs; [|discriminate].
      apply (IH st1); [|eapply Hstep; eauto | exact H].
      apply (reachable_run [ev] st0 st1 Hr). simpl. now rewrite Hs. }
  apply (G evs mount); [exists []; reflexivity | exact H0 | exact Hrun].
Qed.

Lemma resume_time (e : AudioEngine.t) (c : AudioEngine.AudioContext) :
  AudioEngine.ctx e = Some c ->
  exists c',
    AudioEngine.ctx (AudioEngine.resume e) = Some c' /\
    AudioEngine.currentTime c' = AudioEngine.currentTime c /\
    AudioEngine.gainNode (AudioEngine.resume e) = AudioEngine.gainNode e /\
    AudioEngine.toneCalls (AudioEngine.resume e) = AudioEngine.toneCalls e.
Proof.
  intros Hc. unfold AudioEngine.resume. rewrite Hc.
  destruct (AudioEngine.state c) eqn:Hs; simpl; eauto.
Qed.

Lemma accepted_call (pitch : string) (d t : Q) :
  finitePitch pitch = true -> 0 <= d -> 0 <= t -> accepted (pitch, d, t).
Proof.
  intros Hp Hd Ht. unfold accepted. intros _. cbv zeta.
  unfold AudioEngine.newVoice.
  cbn [AudioEngine.osc_frequency_time AudioEngine.noteGain AudioEngine.osc_start
       AudioEngine.osc_stop].
  assert (Hm : (5 # 100) <= Qmax (5 # 100) (d * (8 # 10))) by apply Q.le_max_l.
  split; [exact Hp|]. split; [exact Ht|]. split.
  - repeat constructor; cbn [eventTime]; Lqa.lra.
  - split; Lqa.lra.
Qed.

Lemma frameDurationSec_nonneg (frame : FrameData) (speed : Q) :
  0 < tempo data -> 0 <= duration frame -> 0 < speed ->
  0 <= frameDurationSec data frame speed.
Proof.
  intros Ht Hd Hs. unfold frameDurationSec, beatDurationSec.
  assert (Hb : 0 < 60 / tempo data) by (apply Qdiv_pos; [Lqa.lra | exact Ht]).
  apply Qle_shift_div_l; [exact Hs|]. rewrite Qmult_0_l.
  apply Qmult_le_0_compat; [apply Qlt_le_weak, Hb | exact Hd].
Qed.

Lemma Sound_same (st st' : Player) :
  playbackSpeed st' = playbackSpeed st ->
  incl (pendingTimers st') (pendingTimers st) ->
  audioEngine st' = audioEngine st ->
  Sound st -> Sound st'.
Proof.
  intros Hs Hp Ha (H1 & H2 & H3). unfold Sound. rewrite Hs, Ha.
  split; [exact H1|]. split; [|exact H3].
  rewrite Forall_forall in *. intros t Ht. apply H2, Hp, Ht.
Qed.

Lemma clearTimeout_Sound (i : nat) (st : Player) : Sound st -> Sound (clearTimeout i st).
Proof.
  apply Sound_same; try reflexivity.
  intros t Ht. simpl in Ht. apply filter_In in Ht. tauto.
Qed.

Lemma clearPending_Sound (st : Player) : Sound st -> Sound (clearPending st).
Proof.
  unfold clearPending. destruct (timeoutRef st) as [[|i]|]; auto.
  apply clearTimeout_Sound.
Qed.

Lemma playFrame_Sound (speed : Q) (index : nat) (st st' : Player) :
  playable data -> 0 < speed -> Sound st ->
  playFrame data speed index st = Ok st' -> Sound st'.
Proof.
  intros [Htempo Hframes] Hspeed (H1 & H2 & e & c & g & He & Hc & Hg & Hnow & Hcalls) Hpf.
  destruct (playFrame_cases speed index st) as [[_ E] | (f & Hf & E)];
    rewrite E in Hpf; injection Hpf as <-.
  - split; [exact H1|]. split; [exact H2|]. exists e, c, g. auto.
  - rewrite Forall_forall in Hframes.
    destruct (Hframes f (nth_error_In _ _ Hf)) as [Hd Hfin].
    pose proof (frameDurationSec_nonneg f speed Htempo Hd Hspeed) as Hsec.
    split; [exact H1|]. split.
    + cbn [pendingTimers armTimeout withAudio setCurrentFrameIndex noteRead].
      apply Forall_app. split; [exact H2|]. constructor; [|constructor].
      cbn [timer_delay timer_callback cb_speed]. split; [|exact Hspeed].
      unfold frameDurationMs. Lqa.nra.
    + cbn [audioEngine armTimeout withAudio setCurrentFrameIndex noteRead].
      rewrite He. cbn [option_map].
      destruct (resume_time e c Hc) as (c1 & Hc1 & Ht1 & Hg1 & Hcalls1).
      rewrite Hg in Hg1.
      unfold AudioEngine.playChord. rewrite Hc1.
      destruct (forEach_playTone (notes f)
                  (frameDurationSec data f speed * (95 # 100))
                  (AudioEngine.currentTime c1) g (AudioEngine.resume e) c1 Hc1 Hg1)
        as (Hcalls2 & Hg2 & c2 & Hc2 & Ht2 & _).
      eexists. exists c2, g. split; [reflexivity|]. split; [exact Hc2|].
      split; [exact Hg2|]. split; [rewrite Ht2, Ht1; exact Hnow|].
      rewrite Hcalls2, Hcalls1. apply Forall_app. split; [exact Hcalls|].
      rewrite Forall_forall. intros call Hin. apply in_map_iff in Hin as (p & <- & Hp).
      apply accepted_call.
      * rewrite forallb_forall in Hfin. exact (Hfin p Hp).
      * Lqa.nra.
      * rewrite Ht1. exact Hnow.
Qed.

Lemma reachable_accepted (st : Player) :
  playable data -> reachable data st -> Sound st.
Proof.
  intros Hplayable. revert st. apply reachable_ind.
  - split; [reflexivity|]. split; [constructor|].
    eexists. eexists. eexists. split; [reflexivity|]. split; [reflexivity|].
    split; [reflexivity|]. split; [apply Qle_refl | constructor].
  - intros ev st st' _ HS Hstep. apply step_inversion in Hstep. destruct ev.
    + destruct (isPlaying st) eqn:Hp.
      * subst st'. apply clearPending_Sound.
        revert HS. apply Sound_same; [reflexivity | apply incl_refl | reflexivity].
      * apply (playFrame_Sound _ _ _ _ Hplayable (proj1 HS)) in Hstep; [exact Hstep|].
        revert HS. apply Sound_same; [reflexivity | apply incl_refl | reflexivity].
    + subst st'. apply clearPending_Sound.
      revert HS. apply Sound_same; [reflexivity | apply incl_refl | reflexivity].
    + subst st'. destruct HS as (H1 & H2 & H3). split; [|split; [exact H2 | exact H3]].
      cbn [playbackSpeed setPlaybackSpeed].
      apply Qlt_le_trans with (25 # 100); [reflexivity | apply Q.le_max_l].
    + subst st'. destruct HS as (H1 & H2 & H3). split; [|split; [exact H2 | exact H3]].
      cbn [playbackSpeed setPlaybackSpeed].
      apply Q.min_glb_lt; Lqa.lra.
    + destruct Hstep as (t & Hfind & _ & Hpf).
      assert (Hin : In t (pendingTimers st)).
      { unfold findTimer in Hfind. apply find_some in Hfind. tauto. }
      pose proof (proj1 (proj2 HS)) as Htimers. rewrite Forall_forall in Htimers.
      apply (playFrame_Sound _ _ _ _ Hplayable (proj2 (Htimers t Hin))) in Hpf;
        [exact Hpf|].
      now apply clearTimeout_Sound.
    + destruct Hstep as [Hdt ->]. apply Qle_bool_iff in Hdt.
      destruct HS as (H1 & H2 & e & c & g & He & Hc & Hg & Hnow & Hcalls).
      split; [exact H1|]. split; [exact H2|].
      cbn [audioEngine elapse]. rewrite He. cbn [option_map]. rewrite Hc.
      eexists. eexists. exists g. split; [reflexivity|]. split; [reflexivity|].
      split; [exact Hg|]. cbn [AudioEngine.currentTime AudioEngine.toneCalls].
      split; [|exact Hcalls].
      assert (0 <= dt / 1000) by (apply Qle_shift_div_l; Lqa.lra). Lqa.lra.
Qed.

Lemma stopped_is_fixed_by_stop (s : Player) :
  isPlaying s = false -> currentFrameIndex s = 0%nat -> pendingTimers s = [] ->
  handleStop s = Ok s.
Proof.
  destruct s as [p i sp ref au pend nx ck rd]. simpl. intros -> -> ->.
  unfold handleStop, clearPending. simpl. destruct ref as [[|k]|]; reflexivity.
Qed.

(** Reset: from whatever state the player is in, [handleStop] leaves it
    stopped on frame 0 with nothing scheduled, so that no timer can fire
    afterwards; the speed and what was played are kept, and a second reset
    changes nothing. *)
Theorem stop_resets_from_any_state (st : Player) (Hreach : reachable data st) :
  exists stopped,
    handleStop st = Ok stopped /\
    isPlaying stopped = false /\
    currentFrameIndex stopped = 0%nat /\
    pendingTimers stopped = [] /\
    playbackSpeed stopped = playbackSpeed st /\
    frameReads stopped = frameReads st /\
    (forall i, step data (TimerFires i) stopped = None) /\
    handleStop stopped = Ok stopped.
Proof.
  pose proof (reachable_Inv data st Hreach) as HI.
  pose proof HI as (Hnext & _).
  destruct (clearPending_Inv (setCurrentFrameIndex 0 (setIsPlaying false st))
              Hnext (Inv_pending data st HI)) as (H1 & H2 & H3 & _ & H5 & H6).
  exists (clearPending (setCurrentFrameIndex 0 (setIsPlaying false st))).
  split; [reflexivity|]. split; [rewrite H2; reflexivity|].
  split; [rewrite H3; reflexivity|]. split; [exact H1|].
  split; [rewrite H6; reflexivity|]. split; [rewrite H5; reflexivity|].
  split; [intros i; now apply no_timer_fires_when_idle|].
  apply stopped_is_fixed_by_stop; [rewrite H2 | rewrite H3 | exact H1]; reflexivity.
Qed.

(** Teardown: the cleanup of the mount effect leaves no timer behind,
    whatever the player was doing, and keeps everything else. *)
Theorem cleanup_cancels_the_timer (st : Player) (Hreach : reachable data st) :
  pendingTimers (cleanup st) = [] /\
  (forall i, step data (TimerFires i) (cleanup st) = None) /\
  currentFrameIndex (cleanup st) = currentFrameIndex st /\
  frameReads (cleanup st) = frameReads st.
Proof.
  pose proof (reachable_Inv data st Hreach) as HI.
  pose proof HI as (Hnext & _).
  destruct (clearPending_Inv st Hnext (Inv_pending data st HI))
    as (H1 & _ & H3 & _ & H5 & _).
  unfold cleanup. split; [exact H1|].
  split; [intros i; now apply no_timer_fires_when_idle|]. auto.
Qed.

(** In a playable session at most one advance timer is pending at every
    instant: none while the player is stopped, exactly one while it plays,
    and that one is the timer [timeoutRef] names, set for the frame after the
    current one, with a delay that is not negative. *)
Theorem at_most_one_pending_timer (st : Player)
    (Hplayable : playable data) (Hreach : reachable data st) :
  (List.length (pendingTimers st) <= 1)%nat /\
  (pendingTimers st = [] <-> isPlaying st = false) /\
  (forall t, In t (pendingTimers st) ->
             isPlaying st = true /\
             timeoutRef st = Some (timer_id t) /\
             cb_index (timer_callback t) = S (currentFrameIndex st) /\
             pendingTimers st = [t] /\
             0 <= timer_delay t /\ 0 < cb_speed (timer_callback t)).
Proof.
  pose proof (reachable_Inv data st Hreach) as (_ & Hidle & Hrun & _).
  pose proof (reachable_accepted st Hplayable Hreach) as (_ & Htimers & _).
  rewrite Forall_forall in Htimers.
  destruct (isPlaying st) eqn:Hp.
  - destruct (Hrun eq_refl) as (t & Hpend & Href & _ & Hcb & _).
    rewrite Hpend in *. simpl. split; [lia|]. split; [split; discriminate|].
    intros t' Hin. destruct (Htimers t' Hin) as [Hd Hs].
    destruct Hin as [<- | []].
    split; [reflexivity|]. split; [exact Href|]. split; [exact Hcb|].
    split; [reflexivity|]. split; [exact Hd | exact Hs].
  - rewrite (Hidle eq_refl). simpl. split; [lia|]. split; [tauto|]. intros t' [].
Qed.

(** With no frames nothing ever plays: the player is never playing, never
    holds a timer and never reads a frame. *)
Theorem empty_sequence_never_plays (st : Player)
    (Hempty : frames data = []) (Hreach : reachable data st) :
  isPlaying st = false /\ pendingTimers st = [] /\
  frameReads st = [] /\ currentFrameIndex st = 0%nat.
Proof.
  pose proof (reachable_Inv data st Hreach) as (_ & Hidle & Hrun & Hreads & Hidx).
  rewrite Hempty in *. simpl in *.
  assert (Hp : isPlaying st = false).
  { destruct (isPlaying st); [|reflexivity].
    destruct (Hrun eq_refl) as (t & _ & _ & _ & _ & Hlt). lia. }
  split; [exact Hp|]. split; [auto|]. split; [|lia].
  destruct (frameReads st) as [|i l]; [reflexivity|].
  inversion Hreads; lia.
Qed.

Lemma step_speed (ev : event) (st st' : Player) :
  step data ev st = Some st' ->
  playbackSpeed st' =
  match ev with
  | ClickSlower => Qmax (25 # 100) (playbackSpeed st - (25 # 100))
  | ClickFaster => Qmin 2 (playbackSpeed st + (25 # 100))
  | _ => playbackSpeed st
  end.
Proof.
  intros H. apply step_inversion in H. destruct ev.
  - destruct (isPlaying st).
    + subst st'. now destruct (clearPending_fields (setIsPlaying false st)) as (_ & _ & -> & _).
    + destruct (playFrame_cases (playbackSpeed st) (currentFrameIndex st)
                  (setIsPlaying true st)) as [[_ E] | (f & _ & E)];
        rewrite E in H; injection H as <-; reflexivity.
  - subst st'.
    now destruct (clearPending_fields (setCurrentFrameIndex 0 (setIsPlaying false st)))
      as (_ & _ & -> & _).
  - now subst st'.
  - now subst st'.
  - destruct H as (t & _ & _ & H).
    destruct (playFrame_cases (cb_speed (timer_callback t)) (cb_index (timer_callback t))
                (clearTimeout i st)) as [[_ E] | (f & _ & E)];
      rewrite E in H; injection H as <-; reflexivity.
  - destruct H as [_ ->]. reflexivity.
Qed.

Ltac on_the_grid Heq :=
  first [ exfalso; Lqa.lra
        | solve [exists 1%Z; split; [lia | eapply Qeq_trans; [exact Heq | Lqa.lra]]]
        | solve [exists 2%Z; split; [lia | eapply Qeq_trans; [exact Heq | Lqa.lra]]]
        | solve [exists 3%Z; split; [lia | eapply Qeq_trans; [exact Heq | Lqa.lra]]]
        | solve [exists 4%Z; split; [lia | eapply Qeq_trans; [exact Heq | Lqa.lra]]]
        | solve [exists 5%Z; split; [lia | eapply Qeq_trans; [exact Heq | Lqa.lra]]]
        | solve [exists 6%Z; split; [lia | eapply Qeq_trans; [exact Heq | Lqa.lra]]]
        | solve [exists 7%Z; split; [lia | eapply Qeq_trans; [exact Heq | Lqa.lra]]]
        | solve [exists 8%Z; split; [lia | eapply Qeq_trans; [exact Heq | Lqa.lra]]] ].

Lemma slower_on_the_grid (s : Q) (k : Z) :
  (1 <= k <= 8)%Z -> s == k # 4 ->
  exists k' : Z, (1 <= k' <= 8)%Z /\ Qmax (25 # 100) (s - (25 # 100)) == k' # 4.
Proof.
  intros Hk Hs.
  assert (Hc : (k = 1 \/ k = 2 \/ k = 3 \/ k = 4 \/ k = 5 \/ k = 6 \/ k = 7 \/ k = 8)%Z)
    by lia.
  destruct (Q.max_spec (25 # 100) (s - (25 # 100))) as [[Hlt Heq] | [Hle Heq]];
    repeat (destruct Hc as [Hc | Hc]); subst k; on_the_grid Heq.
Qed.

Lemma faster_on_the_grid (s : Q) (k : Z) :
  (1 <= k <= 8)%Z -> s == k # 4 ->
  exists k' : Z, (1 <= k' <= 8)%Z /\ Qmin 2 (s + (25 # 100)) == k' # 4.
Proof.
  intros Hk Hs.
  assert (Hc : (k = 1 \/ k = 2 \/ k = 3 \/ k = 4 \/ k = 5 \/ k = 6 \/ k = 7 \/ k = 8)%Z)
    by lia.
  destruct (Q.min_spec 2 (s + (25 # 100))) as [[Hlt Heq] | [Hle Heq]];
    repeat (destruct Hc as [Hc | Hc]); subst k; on_the_grid Heq.
Qed.

(** The speed never leaves the range of the two buttons: in every state it
    is one of 0.25, 0.5, ..., 2.0, hence positive and never a divisor 0. *)
Theorem speed_stays_in_range (st : Player) (Hreach : reachable data st) :
  (exists k : Z, (1 <= k <= 8)%Z /\ playbackSpeed st == k # 4) /\
  1 # 4 <= playbackSpeed st /\ playbackSpeed st <= 2.
Proof.
  assert (H : exists k : Z, (1 <= k <= 8)%Z /\ playbackSpeed st == k # 4).
  { revert st Hreach. apply reachable_ind.
    - exists 4%Z. split; [lia | reflexivity].
    - intros ev st st' _ (k & Hk & Hs) Hstep.
      rewrite (step_speed ev st st' Hstep).
      destruct ev; try (exists k; split; [exact Hk | exact Hs]).
      + exact (slower_on_the_grid (playbackSpeed st) k Hk Hs).
      + exact (faster_on_the_grid (playbackSpeed st) k Hk Hs). }
  split; [exact H|]. destruct H as (k & Hk & Hs).
  assert (Hc : (k = 1 \/ k = 2 \/ k = 3 \/ k = 4 \/ k = 5 \/ k = 6 \/ k = 7 \/ k = 8)%Z)
    by lia.
  repeat (destruct Hc as [Hc | Hc]); subst k; split; Lqa.lra.
Qed.

Lemma stepwise_snoc (l : list nat) (b : nat) :
  stepwise l ->
  (l = [] \/ b = S (last l 0%nat) \/ b = last l 0%nat \/ b = 0%nat) ->
  stepwise (l ++ [b]).
Proof.
  induction l as [|a [|a' l] IH]; intros Hl Hb.
  - exact I.
  - simpl. split; [|exact I]. destruct Hb as [Hb | Hb]; [discriminate | exact Hb].
  - destruct Hl as [Ha Hl]. split; [exact Ha|].
    apply IH; [exact Hl|]. right.
    destruct Hb as [Hb | Hb]; [discriminate | exact Hb].
Qed.

Lemma hd_snoc (l : list nat) (b : nat) :
  hd 0%nat l = 0%nat -> (l = [] -> b = 0%nat) -> hd 0%nat (l ++ [b]) = 0%nat.
Proof. destruct l; simpl; auto. Qed.

Lemma playFrame_reads (speed : Q) (index : nat) (st st' : Player) :
  playFrame data speed index st = Ok st' ->
  (isPlaying st' = false /\ currentFrameIndex st' = 0%nat /\
   frameReads st' = frameReads st /\ (List.length (frames data) <= index)%nat) \/
  (isPlaying st' = isPlaying st /\ currentFrameIndex st' = index /\
   frameReads st' = frameReads st ++ [index] /\ (index < List.length (frames data))%nat).
Proof.
  intros H.
  destruct (playFrame_cases speed index st) as [[Hle E] | (f & Hf & E)];
    rewrite E in H; injection H as <-; [left | right]; simpl; repeat split; auto.
  apply nth_error_Some. congruence.
Qed.

(** The frames are visited in sequence: the first frame read is frame 0,
    every later read is of the frame just read (a resume), of its successor
    (a tick) or of frame 0 (after a reset or the end), never further ahead
    and never past the end; while playing, the last frame read is the
    current one. *)
Theorem reads_follow_the_sequence (st : Player) (Hreach : reachable data st) :
  stepwise (frameReads st) /\
  hd 0%nat (frameReads st) = 0%nat /\
  Forall (fun i => (i < List.length (frames data))%nat) (frameReads st) /\
  (isPlaying st = true ->
   frameReads st <> [] /\ last (frameReads st) 0%nat = currentFrameIndex st).
Proof.
  assert (H : stepwise (frameReads st) /\ hd 0%nat (frameReads st) = 0%nat /\
              (currentFrameIndex st = 0%nat \/
               (frameReads st <> [] /\ last (frameReads st) 0%nat = currentFrameIndex st)) /\
              (isPlaying st = true ->
               frameReads st <> [] /\ last (frameReads st) 0%nat = currentFrameIndex st)).
  { revert st Hreach. apply reachable_ind.
    - simpl. repeat split; auto; discriminate.
    - intros ev st st' Hr (Hs & Hh & Hi & Hp) Hstep.
      pose proof (reachable_Inv data st Hr) as (_ & _ & Hrun & _).
      apply step_inversion in Hstep. destruct ev.
      + destruct (isPlaying st) eqn:Hplay.
        * subst st'.
          destruct (clearPending_fields (setIsPlaying false st))
            as (-> & -> & _ & _ & -> & _). simpl.
          repeat split; auto; discriminate.
        * apply playFrame_reads in Hstep.
          destruct Hstep as [(E1 & E2 & E3 & _) | (E1 & E2 & E3 & _)];
            rewrite E1, E2, E3; simpl.
          -- repeat split; auto; discriminate.
          -- assert (Hl : last (frameReads st ++ [currentFrameIndex st]) 0%nat =
                          currentFrameIndex st) by apply last_last.
             assert (Hne : frameReads st ++ [currentFrameIndex st] <> [])
               by (destruct (frameReads st); discriminate).
             repeat split; auto.
             ++ apply stepwise_snoc; [exact Hs|].
                destruct Hi as [Hi | [_ Hi]]; rewrite Hi; auto.
             ++ apply hd_snoc; [exact Hh|]. intros Hnil.
                destruct Hi as [Hi | [Hi _]]; [exact Hi | contradiction].
      + subst st'.
        destruct (clearPending_fields (setCurrentFrameIndex 0 (setIsPlaying false st)))
          as (-> & -> & _ & _ & -> & _). simpl.
        repeat split; auto; discriminate.
      + subst st'. simpl. auto.
      + subst st'. simpl. auto.
      + destruct Hstep as (t & Hfind & _ & Hplay).
        unfold findTimer in Hfind. apply find_some in Hfind as [Hin _].
        destruct (isPlaying st) eqn:Hpl.
        * destruct (Hrun eq_refl) as (t0 & Hpend & _ & _ & Hcb & _).
          rewrite Hpend in Hin. destruct Hin as [<- | []]. rewrite Hcb in Hplay.
          destruct (Hp eq_refl) as [Hne Hlast].
          apply playFrame_reads in Hplay.
          destruct Hplay as [(E1 & E2 & E3 & _) | (E1 & E2 & E3 & _)];
            rewrite E1, E2, E3; simpl.
          -- repeat split; auto; discriminate.
          -- assert (Hl : last (frameReads st ++ [S (currentFrameIndex st)]) 0%nat =
                          S (currentFrameIndex st)) by apply last_last.
             assert (Hne' : frameReads st ++ [S (currentFrameIndex st)] <> [])
               by (destruct (frameReads st); discriminate).
             repeat split; auto.
             ++ apply stepwise_snoc; [exact Hs|]. rewrite Hlast. auto.
             ++ apply hd_snoc; [exact Hh|]. intros Hnil. contradiction.
        * pose proof (reachable_Inv data st Hr) as (_ & Hidle & _).
          rewrite (Hidle Hpl) in Hin. destruct Hin.
      + destruct Hstep as [_ ->]. simpl. auto. }
  destruct H as (Hs & Hh & _ & Hp).
  pose proof (reachable_Inv data st Hreach) as (_ & _ & _ & Hreads & _).
  auto.
Qed.

Lemma run_two (a b : event) (st s1 s2 : Player) :
  step data a st = Some s1 -> step data b s1 = Some s2 ->
  run data [a; b] st = Some s2.
Proof. intros H1 H2. simpl. now rewrite H1, H2. Qed.

(** One tick: when the player plays, waiting until its timer is due and
    letting it fire either moves on to the next frame or, from the last
    frame, stops. *)
Lemma tick (st : Player) :
  reachable data st -> isPlaying st = true ->
  exists t st1,
    pendingTimers st = [t] /\
    run data [Elapse (Qmax 0 (timer_due t - clock st)); TimerFires (timer_id t)] st
    = Some st1 /\
    ((S (currentFrameIndex st) < List.length (frames data))%nat /\
     isPlaying st1 = true /\ currentFrameIndex st1 = S (currentFrameIndex st) /\
     frameReads st1 = frameReads st ++ [S (currentFrameIndex st)]
     \/
     S (currentFrameIndex st) = List.length (frames data) /\
     isPlaying st1 = false /\ currentFrameIndex st1 = 0%nat /\
     pendingTimers st1 = [] /\ frameReads st1 = frameReads st).
Proof.
  intros Hreach Hrun.
  pose proof (reachable_Inv data st Hreach) as (_ & _ & Hplaying & _).
  destruct (Hplaying Hrun) as (t & Hpend & _ & _ & Hcb & Hlt).
  set (dt := Qmax 0 (timer_due t - clock st)).
  assert (H0 : Qle_bool 0 dt = true) by (apply Qle_bool_iff, Q.le_max_l).
  assert (Hdue : Qle_bool (timer_due t) (clock st + dt) = true).
  { apply Qle_bool_iff.
    assert (timer_due t - clock st <= dt) by apply Q.le_max_r. Lqa.lra. }
  assert (Hfire : fire data (timer_id t) (elapse dt st) =
                  Some (playFrame data (cb_speed (timer_callback t))
                          (S (currentFrameIndex st))
                          (clearTimeout (timer_id t) (elapse dt st)))).
  { unfold fire, findTimer. simpl. rewrite Hpend. simpl.
    rewrite Nat.eqb_refl, Hdue, Hcb. reflexivity. }
  assert (Hclr : pendingTimers (clearTimeout (timer_id t) (elapse dt st)) = []).
  { simpl. rewrite Hpend. simpl. now rewrite Nat.eqb_refl. }
  exists t. fold dt.
  destruct (playFrame_cases (cb_speed (timer_callback t)) (S (currentFrameIndex st))
              (clearTimeout (timer_id t) (elapse dt st))) as [[Hle E] | (f & Hf & E)].
  - eexists. split; [exact Hpend|]. split.
    + apply (run_two _ _ st (elapse dt st)).
      * unfold step. cbn [handle]. now rewrite H0.
      * unfold step. cbn [handle]. rewrite Hfire, E. reflexivity.
    + right. simpl. rewrite Hpend. simpl. rewrite Nat.eqb_refl. simpl.
      repeat split. lia.
  - eexists. split; [exact Hpend|]. split.
    + apply (run_two _ _ st (elapse dt st)).
      * unfold step. cbn [handle]. now rewrite H0.
      * unfold step. cbn [handle]. rewrite Hfire, E. reflexivity.
    + left. simpl. split; [apply nth_error_Some; congruence|]. auto.
Qed.


Lemma resume_keeps (e : AudioEngine.t) (c : AudioEngine.AudioContext) (g : Q) :
  AudioEngine.ctx e = Some c -> AudioEngine.gainNode e = Some g ->
  exists c',
    AudioEngine.ctx (AudioEngine.resume e) = Some c' /\
    AudioEngine.gainNode (AudioEngine.resume e) = Some g /\
    AudioEngine.toneCalls (AudioEngine.resume e) = AudioEngine.toneCalls e /\
    AudioEngine.state c' = AudioEngine.Active.
Proof.
  intros Hc Hg. unfold AudioEngine.resume. rewrite Hc.
  destruct (AudioEngine.state c) eqn:Hs; simpl; eauto.
Qed.

(** What is heard is what is shown: in a playable session the pitches
    handed to the synthesizer, in order, are the notes of the frames
    visited, in the order they were visited, and every one of these calls of
    [playTone] is one Web Audio accepts, so that no chord is cut short; the
    audio engine and its context are always there. *)
Theorem heard_is_what_was_visited (st : Player)
    (Hplayable : playable data) (Hreach : reachable data st) :
  exists e c,
    audioEngine st = Some e /\ AudioEngine.ctx e = Some c /\
    pitchesPlayed e = flat_map (notesAt data) (frameReads st) /\
    Forall accepted (AudioEngine.toneCalls e).
Proof.
  assert (H : exists e c g,
             audioEngine st = Some e /\ AudioEngine.ctx e = Some c /\
             AudioEngine.gainNode e = Some g /\
             pitchesPlayed e = flat_map (notesAt data) (frameReads st)).
  { generalize Hreach. generalize st. apply reachable_ind.
    - simpl. eexists. eexists. eexists. repeat split.
    - clear st Hreach.
      intros ev st st' _ (e & c & g & He & Hc & Hg & Hp) Hstep.
      assert (Hplay : forall speed index s s',
                 audioEngine s = audioEngine st -> frameReads s = frameReads st ->
                 playFrame data speed index s = Ok s' ->
                 exists e c g,
                   audioEngine s' = Some e /\ AudioEngine.ctx e = Some c /\
                   AudioEngine.gainNode e = Some g /\
                   pitchesPlayed e = flat_map (notesAt data) (frameReads s')).
      { intros speed index s s' Ha Hr Hpf.
        destruct (playFrame_cases speed index s) as [[_ E] | (f & Hf & E)];
          rewrite E in Hpf; injection Hpf as <-; simpl; rewrite Ha, Hr, He; simpl.
        - exists e, c, g. auto.
        - destruct (resume_keeps e c g Hc Hg) as (c1 & Hc1 & Hg1 & Ht1 & _).
          unfold AudioEngine.playChord. rewrite Hc1.
          destruct (forEach_playTone (notes f)
                      (frameDurationSec data f speed * (95 # 100))
                      (AudioEngine.currentTime c1) g (AudioEngine.resume e) c1 Hc1 Hg1)
            as (Hcalls & Hgain & c2 & Hc2 & _).
          eexists. exists c2, g. split; [reflexivity|]. split; [exact Hc2|].
          split; [exact Hgain|].
          unfold pitchesPlayed in *. rewrite Hcalls, Ht1, map_app, Hp, flat_map_app.
          f_equal. simpl. rewrite app_nil_r. unfold notesAt. rewrite Hf.
          rewrite map_map. simpl. apply map_id. }
      apply step_inversion in Hstep. destruct ev.
      + destruct (isPlaying st).
        * subst st'.
          destruct (clearPending_fields (setIsPlaying false st))
            as (_ & _ & _ & -> & -> & _). simpl. exists e, c, g. auto.
        * eapply Hplay; [| | exact Hstep]; reflexivity.
      + subst st'.
        destruct (clearPending_fields (setCurrentFrameIndex 0 (setIsPlaying false st)))
          as (_ & _ & _ & -> & -> & _). simpl. exists e, c, g. auto.
      + subst st'. simpl. exists e, c, g. auto.
      + subst st'. simpl. exists e, c, g. auto.
      + destruct Hstep as (t & _ & _ & Hpf).
        eapply Hplay; [| | exact Hpf]; reflexivity.
      + destruct Hstep as [_ ->]. simpl. rewrite He. simpl. rewrite Hc.
        eexists. eexists. exists g.
        split; [reflexivity|]. split; [reflexivity|]. split; [exact Hg | exact Hp]. }
  pose proof (reachable_accepted st Hplayable Hreach)
    as (_ & _ & e0 & _ & _ & He0 & _ & _ & _ & Hacc).
  destruct H as (e & c & g & He & Hc & _ & Hp). exists e, c.
  split; [exact He|]. split; [exact Hc|]. split; [exact Hp|].
  rewrite He in He0. injection He0 as <-. exact Hacc.
Qed.

(** The frame on display always exists and the progress bar stays within
    its track: with at least one frame, [currentFrameIndex] is a valid index
    in every state, and the bar's width is above 0% and at most 100%. *)
Theorem progress_stays_within_the_track (st : Player)
    (Hreach : reachable data st) (Hne : frames data <> []) :
  (currentFrameIndex st < List.length (frames data))%nat /\
  (exists frame, currentFrame data st = Some frame) /\
  0 < progressPercent data st /\ progressPercent data st <= 100.
Proof.
  pose proof (reachable_Inv data st Hreach) as (_ & _ & _ & _ & Hidx).
  assert (Hn : (0 < List.length (frames data))%nat)
    by (destruct (frames data); [congruence | simpl; lia]).
  assert (Hlt : (currentFrameIndex st < List.length (frames data))%nat) by lia.
  split; [exact Hlt|]. split.
  - unfold currentFrame.
    destruct (nth_error (frames data) (currentFrameIndex st)) eqn:E; [eauto|].
    apply nth_error_None in E. lia.
  - unfold progressPercent.
    set (a := inject_Z (Z.of_nat (currentFrameIndex st + 1))).
    set (b := inject_Z (Z.of_nat (List.length (frames data)))).
    assert (Ha : inject_Z 0 < a) by (unfold a; rewrite <- Zlt_Qlt; lia).
    assert (Hb : inject_Z 0 < b) by (unfold b; rewrite <- Zlt_Qlt; lia).
    assert (Hab : a <= b) by (unfold a, b; rewrite <- Zle_Qle; lia).
    change (inject_Z 0) with 0 in Ha, Hb.
    assert (H1 : 0 < a / b) by now apply Qdiv_pos.
    assert (H2 : a / b <= 1) by (apply Qle_shift_div_r; [exact Hb | Lqa.lra]).
    split; Lqa.lra.
Qed.

(** Play starts from where the player stands, at the speed now selected:
    in a playable session, pressing play while stopped, with at least one
    frame, arms exactly one timer, for the current frame's duration at the
    current [playbackSpeed], a delay that is not negative, sounds that
    frame's notes and leaves the index where it was. *)
Theorem play_uses_the_current_speed (st : Player)
    (Hplayable : playable data)
    (Hreach : reachable data st) (Hidle : isPlaying st = false)
    (Hne : frames data <> []) :
  exists frame st' t,
    nth_error (frames data) (currentFrameIndex st) = Some frame /\
    handlePlayPause data st = Ok st' /\
    isPlaying st' = true /\
    currentFrameIndex st' = currentFrameIndex st /\
    pendingTimers st' = [t] /\
    timeoutRef st' = Some (timer_id t) /\
    timer_delay t = frameDurationMs data frame (playbackSpeed st) /\
    0 <= timer_delay t /\
    timer_callback t = mkCallback (currentFrameIndex st + 1) (playbackSpeed st) /\
    frameReads st' = frameReads st ++ [currentFrameIndex st].
Proof.
  pose proof (reachable_Inv data st Hreach) as (_ & Hnone & _ & _ & Hidx).
  pose proof (reachable_accepted st Hplayable Hreach) as (Hspeed & _).
  assert (Hlt : (currentFrameIndex st < List.length (frames data))%nat).
  { destruct (frames data); [congruence | simpl in *; lia]. }
  destruct (nth_error (frames data) (currentFrameIndex st)) as [frame|] eqn:Hf;
    [|apply nth_error_None in Hf; lia].
  exists frame. eexists. eexists. split; [reflexivity|].
  split.
  { unfold handlePlayPause. rewrite Hidle.
    exact (playFrame_in_range data _ _ frame _ Hf). }
  destruct Hplayable as [Htempo Hframes]. rewrite Forall_forall in Hframes.
  destruct (Hframes frame (nth_error_In _ _ Hf)) as [Hd _].
  pose proof (frameDurationSec_nonneg frame (playbackSpeed st) Htempo Hd Hspeed) as Hsec.
  simpl. rewrite (Hnone Hidle). simpl.
  split; [reflexivity|]. split; [reflexivity|]. split; [reflexivity|].
  split; [reflexivity|]. split; [reflexivity|].
  split; [|split; reflexivity].
  unfold frameDurationMs.
  apply Qmult_le_0_compat; [exact Hsec | discriminate].
Qed.

(** The two speed buttons undo each other away from the ends of the range
    and do nothing at the ends: from 2.0 faster stays at 2.0, from 0.25
    slower stays at 0.25. *)
Theorem speed_buttons_compose (st up down : Player)
    (Hup : handleFaster st = Ok up) (Hdown : handleSlower st = Ok down) :
  (forall back, playbackSpeed st <= 175 # 100 -> handleSlower up = Ok back ->
                25 # 100 <= playbackSpeed st -> playbackSpeed back == playbackSpeed st) /\
  (forall back, 50 # 100 <= playbackSpeed st -> handleFaster down = Ok back ->
                playbackSpeed st <= 2 -> playbackSpeed back == playbackSpeed st) /\
  (2 <= playbackSpeed st -> playbackSpeed up == 2) /\
  (playbackSpeed st <= 25 # 100 -> playbackSpeed down == 25 # 100).
Proof.
  unfold handleFaster in Hup. unfold handleSlower in Hdown.
  injection Hup as <-. injection Hdown as <-.
  unfold handleFaster, handleSlower. simpl.
  repeat split.
  - intros back H1 Hb H2. injection Hb as <-. simpl.
    destruct (Q.min_spec 2 (playbackSpeed st + (25 # 100))) as [[? E] | [? E]];
      rewrite E;
      match goal with
      | |- Qmax ?a ?b == _ =>
          destruct (Q.max_spec a b) as [[? E'] | [? E']]; rewrite E'; Lqa.lra
      end.
  - intros back H1 Hb H2. injection Hb as <-. simpl.
    destruct (Q.max_spec (25 # 100) (playbackSpeed st - (25 # 100))) as [[? E] | [? E]];
      rewrite E;
      match goal with
      | |- Qmin ?a ?b == _ =>
          destruct (Q.min_spec a b) as [[? E'] | [? E']]; rewrite E'; Lqa.lra
      end.
  - intros H.
    destruct (Q.min_spec 2 (playbackSpeed st + (25 # 100))) as [[? E] | [? E]];
      rewrite E; Lqa.lra.
  - intros H.
    destruct (Q.max_spec (25 # 100) (playbackSpeed st - (25 # 100))) as [[? E] | [? E]];
      rewrite E; Lqa.lra.
Qed.

End SchedulerInvariants.

(** ** The synthesizer, continued *)

Section SynthesizerFacts.
Import JSString AudioEngine Grammar Shapes.
Local Open Scope string_scope.

Ltac each_char c :=
  destruct c as [[] [] [] [] [] [] [] []]; vm_compute; try reflexivity; try discriminate; auto.

Lemma span_mapChars (p : ascii -> bool) (f : ascii -> ascii) (s : string) :
  (forall c, p (f c) = p c) ->
  span p (mapChars f s) = (mapChars f (fst (span p s)), mapChars f (snd (span p s))).
Proof.
  intros Hp. induction s as [|c s IH]; simpl; [reflexivity|].
  rewrite Hp. destruct (p c); [|reflexivity].
  rewrite IH. destruct (span p s) as [a b]. reflexivity.
Qed.

Lemma allChars_mapChars (p : ascii -> bool) (f : ascii -> ascii) (s : string) :
  (forall c, p (f c) = p c) -> allChars p (mapChars f s) = allChars p s.
Proof.
  intros Hp. induction s as [|c s IH]; simpl; [reflexivity|]. now rewrite Hp, IH.
Qed.

Lemma mapChars_fixes (p : ascii -> bool) (f : ascii -> ascii) (s : string) :
  (forall c, p c = true -> f c = c) -> allChars p s = true -> mapChars f s = s.
Proof.
  intros Hf. induction s as [|c s IH]; simpl; [reflexivity|].
  intros H. apply andb_prop in H as [Hc Hs]. now rewrite (Hf c Hc), (IH Hs).
Qed.

Lemma mapChars_compose (f g h : ascii -> ascii) (s : string) :
  (forall c, f (g c) = h c) -> mapChars f (mapChars g s) = mapChars h s.
Proof.
  intros H. induction s as [|c s IH]; simpl; [reflexivity|]. now rewrite H, IH.
Qed.

(** A case mapping that keeps the two character classes, fixes the digits
    and disappears under [toUpperCase] does not change what a token parses
    to. *)
Lemma noteMidiOf_mapChars (f : ascii -> ascii) (pitch : string) :
  (forall c, isPitchChar (f c) = isPitchChar c) ->
  (forall c, isDigit (f c) = isDigit c) ->
  (forall c, isDigit c = true -> f c = c) ->
  (forall c, toUpperChar (f c) = toUpperChar c) ->
  noteMidiOf (mapChars f pitch) = noteMidiOf pitch.
Proof.
  intros Hp Hd Hfix Hup. unfold noteMidiOf, matchPitch.
  rewrite (span_mapChars isPitchChar f pitch Hp).
  destruct (span isPitchChar pitch) as [a b]. simpl fst. simpl snd.
  destruct a as [|ca a]; [reflexivity|].
  destruct b as [|cb b]; [reflexivity|].
  change (mapChars f (String ca a)) with (String (f ca) (mapChars f a)).
  change (mapChars f (String cb b)) with (String (f cb) (mapChars f b)).
  change (String (f cb) (mapChars f b)) with (mapChars f (String cb b)).
  rewrite (allChars_mapChars isDigit f (String cb b) Hd).
  destruct (allChars isDigit (String cb b)) eqn:Hdig; [|reflexivity].
  rewrite (mapChars_fixes isDigit f (String cb b) Hfix Hdig).
  change (String (f ca) (mapChars f a)) with (mapChars f (String ca a)).
  unfold toUpperCase.
  now rewrite (mapChars_compose toUpperChar f toUpperChar (String ca a) Hup).
Qed.

(** Pitch names are read without regard to case: a token, its upper-case
    form and its lower-case form give the same MIDI number and so the same
    frequency ("a4" is A4, "c#5" is C#5). *)
Theorem pitch_names_ignore_case (pitch : string) :
  noteMidiOf (toUpperCase pitch) = noteMidiOf pitch /\
  noteMidiOf (toLowerCase pitch) = noteMidiOf pitch /\
  frequencyOf (toUpperCase pitch) = frequencyOf pitch /\
  frequencyOf (toLowerCase pitch) = frequencyOf pitch.
Proof.
  assert (Hu : noteMidiOf (toUpperCase pitch) = noteMidiOf pitch).
  { apply noteMidiOf_mapChars; intros c; each_char c. }
  assert (Hl : noteMidiOf (toLowerCase pitch) = noteMidiOf pitch).
  { apply noteMidiOf_mapChars; intros c; each_char c. }
  unfold frequencyOf. rewrite Hu, Hl. auto.
Qed.

(** The oscillator is never given a frequency of zero or below, whatever
    the token; and among the pitches within the float range a higher MIDI
    number is a higher frequency, the same MIDI number the same frequency
    (the frequency is the real number the formula denotes; the rounding of
    [Math.pow] is not modelled and no exact ratio is claimed). *)
Theorem frequency_is_positive_and_rises_with_pitch :
  (forall pitch, (0 < frequencyOf pitch)%R) /\
  (forall low high m n,
      noteMidiOf low = Some m -> noteMidiOf high = Some n ->
      Shapes.finitePitch high = true ->
      ((m < n)%Z -> (frequencyOf low < frequencyOf high)%R) /\
      (m = n -> frequencyOf low = frequencyOf high)).
Proof.
  split.
  - intros pitch. unfold frequencyOf. destruct (noteMidiOf pitch); [|Lra.lra].
    apply Rmult_lt_0_compat; [Lra.lra|]. unfold Rpower. apply exp_pos.
  - intros low high m n Hm Hn _. unfold frequencyOf. rewrite Hm, Hn. split.
    + intros Hlt. apply Rmult_lt_compat_l; [Lra.lra|].
      apply Rpower_lt; [Lra.lra|].
      assert (H : (IZR (m - 69) < IZR (n - 69))%R) by (apply IZR_lt; lia).
      Lra.lra.
    + now intros ->.
Qed.

Lemma frequency_is_positive_and_rises_with_pitch_witness :
  (frequencyOf "A4" < frequencyOf "C5")%R.
Proof.
  apply (proj1 (proj2 frequency_is_positive_and_rises_with_pitch "A4" "C5" 69%Z 72%Z
                  eq_refl eq_refl eq_refl)).
  reflexivity.
Defined.

Lemma prefix_head (a b : ascii) (s t : string) :
  a <> b -> String.prefix (String a s) (String b t) = false.
Proof. intros H. simpl. destruct (ascii_dec a b); [contradiction | reflexivity]. Qed.

Lemma lower_digit_is_not_r (c : ascii) :
  isDigit c = true -> "r"%char <> toLowerChar c.
Proof. each_char c. Qed.

Lemma lower_digit_is_not_e (c : ascii) :
  isDigit c = true -> "e"%char <> toLowerChar c.
Proof. each_char c. Qed.

Lemma digits_hold_no_rest (digits : string) :
  allChars isDigit digits = true -> includes (toLowerCase digits) "rest" = false.
Proof.
  induction digits as [|c s IH]; [reflexivity|].
  intros H. simpl in H. apply andb_prop in H as [Hc Hs].
  change (toLowerCase (String c s)) with (String (toLowerChar c) (toLowerCase s)).
  cbn [includes]. rewrite (prefix_head _ _ _ _ (lower_digit_is_not_r c Hc)).
  exact (IH Hs).
Qed.

(** The silence test never swallows a note: a token that the pitch table
    recognises is not taken for a rest. *)
Theorem recognised_pitch_is_never_a_rest (pitch : string) (m : Z)
    (Hparsed : noteMidiOf pitch = Some m) :
  isRest pitch = false.
Proof.
  destruct (noteMidiOf_parses pitch m Hparsed)
    as (letter & sharp & digits & -> & _ & Hsharp & Hne & Hd).
  unfold isRest.
  assert (Htail : includes (toLowerCase (sharp ++ digits)) "rest" = false).
  { destruct Hsharp as [-> | ->].
    - exact (digits_hold_no_rest digits Hd).
    - change (toLowerCase ("#" ++ digits)) with (String "#" (toLowerCase digits)).
      cbn [includes]. rewrite prefix_head by discriminate.
      exact (digits_hold_no_rest digits Hd). }
  change (toLowerCase (String letter (sharp ++ digits)))
    with (String (toLowerChar letter) (toLowerCase (sharp ++ digits))).
  cbn [includes]. rewrite Htail.
  assert (Hhead : String.prefix "rest"
                    (String (toLowerChar letter) (toLowerCase (sharp ++ digits))) = false).
  { cbn [String.prefix]. destruct (ascii_dec "r" (toLowerChar letter)); [|reflexivity].
    destruct Hsharp as [-> | ->].
    - destruct digits as [|c s]; [congruence|]. simpl in Hd.
      apply andb_prop in Hd as [Hc _].
      change (toLowerCase ("" ++ String c s)) with (String (toLowerChar c) (toLowerCase s)).
      apply prefix_head. exact (lower_digit_is_not_e c Hc).
    - change (toLowerCase ("#" ++ digits)) with (String "#" (toLowerCase digits)).
      apply prefix_head. discriminate. }
  now rewrite Hhead.
Qed.

Lemma recognised_pitch_is_never_a_rest_witness :
  noteMidiOf "E4" = Some 64%Z /\ isRest "E4" = false.
Proof.
  split; [reflexivity|].
  exact (recognised_pitch_is_never_a_rest "E4" 64 eq_refl).
Defined.

(** The envelope of a voice: its four automation points come in time order
    exactly when the note lasts at least 0.05 s (below that the sustain point
    is scheduled after the end of the release); the oscillator is stopped
    0.1 s after the note's duration, so it stops after it starts whenever the
    duration is above -0.1 s. *)
Theorem envelope_is_ordered_from_50ms (pitch : string) (durationSec startTime : Q) :
  let v := newVoice pitch durationSec startTime in
  (nondecreasing (map eventTime (noteGain v)) <-> 5 # 100 <= durationSec) /\
  osc_stop v == osc_start v + durationSec + (1 # 10) /\
  (osc_start v <= osc_stop v <-> - (1 # 10) <= durationSec).
Proof.
  cbv zeta. unfold newVoice. cbn [noteGain osc_start osc_stop map eventTime nondecreasing].
  split; [|split; [reflexivity | split; intros H; Lqa.lra]].
  destruct (Q.max_spec (5 # 100) (durationSec * (8 # 10))) as [[Hlt E] | [Hle E]];
    rewrite E; split.
  - intros (_ & _ & H & _). Lqa.lra.
  - intros H. repeat split; Lqa.lra.
  - intros (_ & _ & H & _). Lqa.lra.
  - intros H. repeat split; Lqa.lra.
Qed.

(** A chord of rests, or of no pitch at all, is silent: [playChord] leaves
    the audio context exactly as it was. *)
Theorem chord_of_rests_is_silent (pitches : list string) (d : Q) (e : AudioEngine.t)
    (Hrests : forallb isRest pitches = true) :
  ctx (playChord pitches d e) = ctx e /\
  gainNode (playChord pitches d e) = gainNode e.
Proof.
  unfold playChord. destruct (ctx e) as [c|] eqn:Hc; [|rewrite Hc; auto].
  assert (G : forall e0, ctx (fold_left (fun e p => playTone p d (currentTime c) e)
                                pitches e0) = ctx e0 /\
                         gainNode (fold_left (fun e p => playTone p d (currentTime c) e)
                                     pitches e0) = gainNode e0).
  { induction pitches as [|p ps IH]; intros e0; simpl; [auto|].
    simpl in Hrests. apply andb_prop in Hrests as [Hp Hps].
    destruct (IH Hps (playTone p d (currentTime c) e0)) as [-> ->].
    unfold playTone, called. simpl. rewrite Hp.
    destruct (ctx e0), (gainNode e0); auto. }
  destruct (G e) as [-> ->]. auto.
Qed.

Lemma chord_of_rests_is_silent_witness :
  let e := create true (mkContext 0 Active []) in
  ctx (playChord ["rest"; "Rest"] 1 e) = ctx e.
Proof.
  intros e.
  exact (proj1 (chord_of_rests_is_silent ["rest"; "Rest"] 1 e eq_refl)).
Defined.

End SynthesizerFacts.

(** ** The renderer, continued *)

Section RendererFacts.
Import Renderer Shapes.

Lemma fraction_of (a b w : Q) :
  0 <= a -> a <= b -> 0 < b -> 0 <= w -> 0 <= a / b * w /\ a / b * w <= w.
Proof.
  intros Ha Hab Hb Hw.
  assert (H0 : 0 <= a / b) by (apply Qle_shift_div_l; [exact Hb | Lqa.lra]).
  assert (H1 : a / b <= 1) by (apply Qle_shift_div_r; [exact Hb | Lqa.lra]).
  split; Lqa.nra.
Qed.

(** The box a note box within the region is mapped to lies within the
    display size. *)
Lemma mapped_box_bounds (noteBox : Box) (displayWidth : Q)
    (c_ymin c_xmin c_ymax c_xmax : Q) :
  c_xmin < c_xmax -> c_ymin < c_ymax -> 0 <= displayWidth ->
  within noteBox (c_ymin, c_xmin, c_ymax, c_xmax) ->
  let '(drawX, drawY, drawW, drawH) :=
    mapHighlight (c_ymin, c_xmin, c_ymax, c_xmax) displayWidth noteBox in
  0 <= drawX /\ 0 <= drawY /\ 0 <= drawW /\ 0 <= drawH /\
  drawX + drawW <= displayWidth /\ drawY + drawH <= displayHeight.
Proof.
  intros Hw Hh Hdw Hin. destruct noteBox as [[[n_ymin n_xmin] n_ymax] n_xmax].
  unfold within in Hin. destruct Hin as (X1 & X2 & X3 & Y1 & Y2 & Y3).
  unfold mapHighlight. cbv beta iota zeta.
  assert (Hdh : 0 <= displayHeight) by (unfold displayHeight; Lqa.lra).
  destruct (fraction_of (n_xmin - c_xmin) (c_xmax - c_xmin) displayWidth)
    as [A1 _]; try Lqa.lra.
  destruct (fraction_of (n_ymin - c_ymin) (c_ymax - c_ymin) displayHeight)
    as [A2 _]; try Lqa.lra.
  destruct (fraction_of (n_xmax - n_xmin) (c_xmax - c_xmin) displayWidth)
    as [A3 _]; try Lqa.lra.
  destruct (fraction_of (n_ymax - n_ymin) (c_ymax - c_ymin) displayHeight)
    as [A4 _]; try Lqa.lra.
  destruct (fraction_of (n_xmax - c_xmin) (c_xmax - c_xmin) displayWidth)
    as [_ A5]; try Lqa.lra.
  destruct (fraction_of (n_ymax - c_ymin) (c_ymax - c_ymin) displayHeight)
    as [_ A6]; try Lqa.lra.
  repeat split; try assumption.
  - assert (E : (n_xmin - c_xmin) / (c_xmax - c_xmin) * displayWidth +
                (n_xmax - n_xmin) / (c_xmax - c_xmin) * displayWidth ==
                (n_xmax - c_xmin) / (c_xmax - c_xmin) * displayWidth)
      by (field; Lqa.lra).
    rewrite E. exact A5.
  - assert (E : (n_ymin - c_ymin) / (c_ymax - c_ymin) * displayHeight +
                (n_ymax - n_ymin) / (c_ymax - c_ymin) * displayHeight ==
                (n_ymax - c_ymin) / (c_ymax - c_ymin) * displayHeight)
      by (field; Lqa.lra).
    rewrite E. exact A6.
Qed.

Lemma within_upright (b region : Box) : within b region -> upright b.
Proof.
  destruct b as [[[a1 a2] a3] a4], region as [[[r1 r2] r3] r4].
  unfold within, upright. tauto.
Qed.

(** The note boxes of a frame that lie within its region are drawn within
    the canvas grown by the padding: when the frame's image is decoded (with
    a positive size), the region has a positive width and height and every
    note box lies within it, [drawFrame] does not throw and every rounded
    rectangle it draws has a radius that is not negative, starts no further
    left or up than the padding, ends no lower than the padding below the
    canvas and, to the right, within the padding of [displayWidth], that is
    less than a pixel beyond the padding right of the canvas, whose width is
    the integer part of [displayWidth]. *)
Theorem highlights_are_drawn_within_the_padded_canvas
    (data : SheetAnalysisResult) (images : list Image) (cv : Canvas)
    (index : nat) (frame : FrameData) (img : Image) (boxes : list Box)
    (c_ymin c_xmin c_ymax c_xmax : Q)
    (Hframe : nth_error (frames data) index = Some frame)
    (Himg : nth_error images
              (match pageIndex frame with Some i => i | None => 0%nat end) = Some img)
    (Hcomplete : complete img = true) (H2d : has2d cv = true)
    (Hnw : 0 < naturalWidth img) (Hnh : 0 < naturalHeight img)
    (Hregion : box_2d frame = (c_ymin, c_xmin, c_ymax, c_xmax))
    (Hw : c_xmin < c_xmax) (Hh : c_ymin < c_ymax)
    (Hboxes : note_coordinates frame = Some boxes)
    (Hwithin : Forall (fun b => within b (box_2d frame)) boxes)
    (Hbig : displayWidthOf img (box_2d frame) < 2147483648) :
  exists cv',
    drawFrame data images (Some cv) index = Ok (Some cv') /\
    forall x y w h r,
      In (RoundRect x y w h r) (ops cv') ->
      0 <= r /\
      0 - padding <= x /\ 0 - padding <= y /\
      x + w <= displayWidthOf img (box_2d frame) + padding /\
      x + w < width cv' + padding + 1 /\
      y + h <= height cv' + padding.
Proof.
  assert (Hup : Forall upright
                  (match note_coordinates frame with Some l => l | None => [] end)).
  { rewrite Hboxes. eapply Forall_impl; [|exact Hwithin].
    intros b Hb. exact (within_upright b _ Hb). }
  pose proof (drawFrame_drawn data images cv index frame img c_ymin c_xmin c_ymax c_xmax
                Hframe Himg Hcomplete H2d Hnw Hnh Hregion Hw Hh Hup) as Hdraw.
  cbv zeta in Hdraw. rewrite Hboxes in Hdraw.
  pose proof (displayWidthOf_pos img c_ymin c_xmin c_ymax c_xmax Hnw Hnh Hw Hh) as Hpos.
  rewrite Hregion in *.
  set (dw := displayWidthOf img (c_ymin, c_xmin, c_ymax, c_xmax)) in *.
  destruct (assignDimension_floor 300 dw (Qlt_le_weak _ _ Hpos) Hbig) as (Ea & Hlo & Hhi).
  eexists. split; [exact Hdraw|]. cbn [ops width height].
  intros x y w h r Hin. rewrite Ea.
  apply in_app_or in Hin. destruct Hin as [Hin | Hin].
  { destruct Hin as [Hin | [Hin | []]]; discriminate. }
  apply in_flat_map in Hin as (b & Hb & Hin).
  rewrite Forall_forall in Hwithin. specialize (Hwithin b Hb).
  pose proof (mapped_box_bounds b dw c_ymin c_xmin c_ymax c_xmax Hw Hh
                (Qlt_le_weak _ _ Hpos) Hwithin) as Hbounds.
  pose proof (upright_radius c_ymin c_xmin c_ymax c_xmax dw b Hw Hh
                (Qlt_le_weak _ _ Hpos) (within_upright b _ Hwithin)) as Hrad.
  unfold drawHighlight in Hin.
  destruct (mapHighlight (c_ymin, c_xmin, c_ymax, c_xmax) dw b)
    as [[[drawX drawY] drawW] drawH].
  destruct Hbounds as (B1 & B2 & B3 & B4 & B5 & B6).
  destruct Hin as [Hin | [Hin | [Hin | [Hin | []]]]]; try discriminate.
  unfold roundRectOf in Hin. injection Hin as <- <- <- <- <-.
  assert (Ew : Qmax 1 (drawW + padding * 2) == drawW + 4)
    by (unfold padding; rewrite Q.max_r; Lqa.lra).
  assert (Eh : Qmax 1 (drawH + padding * 2) == drawH + 4)
    by (unfold padding; rewrite Q.max_r; Lqa.lra).
  rewrite Ew, Eh. unfold padding, displayHeight in *.
  repeat split; try Lqa.lra. exact Hrad.
Qed.

Lemma highlights_are_drawn_within_the_padded_canvas_witness :
  exists cv',
    drawFrame Samples.fullPage [Samples.widePage] (Some Samples.blankCanvas) 0
    = Ok (Some cv') /\
    forall x y w h r,
      In (RoundRect x y w h r) (ops cv') ->
      0 - padding <= x /\ x + w < width cv' + padding + 1.
Proof.
  assert (Hnw : 0 < naturalWidth Samples.widePage) by (vm_compute; reflexivity).
  assert (Hnh : 0 < naturalHeight Samples.widePage) by (vm_compute; reflexivity).
  assert (Hw : 0 < 1000) by (vm_compute; reflexivity).
  assert (Hin : Forall (fun b => within b Samples.wholePage) [Samples.wholePage])
    by (repeat constructor; vm_compute; discriminate).
  assert (Hbig : displayWidthOf Samples.widePage Samples.wholePage < 2147483648)
    by (vm_compute; reflexivity).
  destruct (highlights_are_drawn_within_the_padded_canvas
              Samples.fullPage [Samples.widePage] Samples.blankCanvas 0
              (mkFrame "frame-0" (Some 0%nat) ["A4"]%string 1 Samples.wholePage
                 (Some [Samples.wholePage]))
              Samples.widePage [Samples.wholePage] 0 0 1000 1000
              eq_refl eq_refl eq_refl eq_refl Hnw Hnh eq_refl Hw Hw eq_refl Hin Hbig)
    as (cv' & H1 & H2).
  exists cv'. split; [exact H1|].
  intros x y w h r Hrect. destruct (H2 x y w h r Hrect) as (_ & A & _ & _ & B & _). auto.
Defined.

Lemma highlights_length (region : Box) (displayWidth : Q) (boxes : list Box) :
  List.length (flat_map (drawHighlight region displayWidth) boxes)
  = (4 * List.length boxes)%nat.
Proof.
  induction boxes as [|b bs IH]; [reflexivity|].
  cbn [flat_map]. rewrite length_app, IH. simpl. lia.
Qed.

(** Every render starts from scratch: when the frame, its decoded page (of
    positive size) and a 2d context are there, the region has a positive
    width and height and no note box is inverted, what [drawFrame] leaves on
    the canvas does not depend on the size or the content the canvas had; it
    begins by clearing and drawing the crop over the whole canvas, with the
    canvas size as the element keeps it, and then makes four calls, one of
    them [roundRect], per note box, mapped with [displayWidth].  Rendering
    again changes nothing. *)
Theorem drawFrame_redraws_from_scratch
    (data : SheetAnalysisResult) (images : list Image) (cv : Canvas)
    (index : nat) (frame : FrameData) (img : Image)
    (c_ymin c_xmin c_ymax c_xmax : Q)
    (Hframe : nth_error (frames data) index = Some frame)
    (Himg : nth_error images
              (match pageIndex frame with Some i => i | None => 0%nat end) = Some img)
    (Hcomplete : complete img = true) (H2d : has2d cv = true)
    (Hnw : 0 < naturalWidth img) (Hnh : 0 < naturalHeight img)
    (Hregion : box_2d frame = (c_ymin, c_xmin, c_ymax, c_xmax))
    (Hw : c_xmin < c_xmax) (Hh : c_ymin < c_ymax)
    (Hup : Forall upright (match note_coordinates frame with Some l => l | None => [] end)) :
  exists cv' crop boxes,
    drawFrame data images (Some cv) index = Ok (Some cv') /\
    (forall other, has2d other = true ->
                   drawFrame data images (Some other) index = Ok (Some cv')) /\
    drawFrame data images (Some cv') index = Ok (Some cv') /\
    boxes = match note_coordinates frame with Some l => l | None => [] end /\
    ops cv' = [ClearRect 0 0 (width cv') (height cv'); crop] ++
              flat_map (drawHighlight (box_2d frame) (displayWidthOf img (box_2d frame)))
                boxes /\
    (exists sx sy sw sh, crop = DrawImage
                           (match pageIndex frame with Some i => i | None => 0%nat end)
                           sx sy sw sh 0 0 (width cv') (height cv')) /\
    List.length (ops cv') = (2 + 4 * List.length boxes)%nat.
Proof.
  assert (G : forall other, has2d other = true -> _)
    by (intros other Ho;
        exact (drawFrame_drawn data images other index frame img
                 c_ymin c_xmin c_ymax c_xmax
                 Hframe Himg Hcomplete Ho Hnw Hnh Hregion Hw Hh Hup)).
  cbv zeta in G.
  eexists. eexists. exists (match note_coordinates frame with Some l => l | None => [] end).
  split; [exact (G cv H2d)|]. split; [exact G|].
  split; [apply G; reflexivity|]. split; [reflexivity|].
  cbn [ops width height]. split; [reflexivity|]. split; [eauto|].
  rewrite length_app, highlights_length. reflexivity.
Qed.

Lemma drawFrame_redraws_from_scratch_witness :
  exists cv',
    drawFrame Samples.highlighted [Samples.pageImage] (Some Samples.blankCanvas) 0
    = Ok (Some cv') /\
    drawFrame Samples.highlighted [Samples.pageImage] (Some cv') 0 = Ok (Some cv') /\
    List.length (ops cv') = 6%nat.
Proof.
  assert (Hnw : 0 < naturalWidth Samples.pageImage) by (vm_compute; reflexivity).
  assert (Hnh : 0 < naturalHeight Samples.pageImage) by (vm_compute; reflexivity).
  assert (Hw : 200 < 600) by (vm_compute; reflexivity).
  assert (Hh : 100 < 300) by (vm_compute; reflexivity).
  assert (Hup : Forall upright [Samples.wholeRegion])
    by (repeat constructor; vm_compute; discriminate).
  destruct (drawFrame_redraws_from_scratch Samples.highlighted [Samples.pageImage]
              Samples.blankCanvas 0
              (mkFrame "frame-0" (Some 0%nat) ["A4"]%string 1 Samples.wholeRegion
                 (Some [Samples.wholeRegion]))
              Samples.pageImage 100 200 300 600
              eq_refl eq_refl eq_refl eq_refl Hnw Hnh eq_refl Hw Hh Hup)
    as (cv' & crop & boxes & H1 & _ & H3 & Hb & _ & _ & H7).
  exists cv'. split; [exact H1|]. split; [exact H3|].
  rewrite H7, Hb. reflexivity.
Defined.

Lemma negative_fraction (a b w : Q) : a < 0 -> 0 < b -> 0 < w -> a / b * w < 0.
Proof.
  intros Ha Hb Hw.
  assert (H : a / b < 0) by (apply Qlt_shift_div_r; [exact Hb | Lqa.lra]).
  Lqa.nra.
Qed.

Lemma drawHighlights_throws (region : Box) (displayWidth : Q) (boxes : list Box)
    (b : Box) :
  In b boxes -> cornerRadius (mapHighlight region displayWidth b) < 0 ->
  drawHighlights region displayWidth boxes = Throw "RangeError".
Proof.
  intros Hin Hneg. induction boxes as [|c cs IH]; [contradiction|].
  cbn [drawHighlights].
  destruct (Qle_bool 0 (cornerRadius (mapHighlight region displayWidth c))) eqn:Hc;
    [|reflexivity].
  destruct Hin as [-> | Hin].
  - apply Qle_bool_iff in Hc. Lqa.lra.
  - now rewrite (IH Hin).
Qed.

(** An inverted note box aborts the render: when the frame's image is decoded
    (with a positive size) and the region has a positive width and height,
    one note box whose right bound is left of its left bound, or whose lower
    bound is above its upper bound, makes [drawFrame] throw the RangeError of
    [roundRect], as its corner radius is negative. *)
Theorem inverted_note_box_aborts_the_render
    (data : SheetAnalysisResult) (images : list Image) (cv : Canvas)
    (index : nat) (frame : FrameData) (img : Image) (boxes : list Box)
    (c_ymin c_xmin c_ymax c_xmax n_ymin n_xmin n_ymax n_xmax : Q)
    (Hframe : nth_error (frames data) index = Some frame)
    (Himg : nth_error images
              (match pageIndex frame with Some i => i | None => 0%nat end) = Some img)
    (Hcomplete : complete img = true) (H2d : has2d cv = true)
    (Hnw : 0 < naturalWidth img) (Hnh : 0 < naturalHeight img)
    (Hregion : box_2d frame = (c_ymin, c_xmin, c_ymax, c_xmax))
    (Hw : c_xmin < c_xmax) (Hh : c_ymin < c_ymax)
    (Hboxes : note_coordinates frame = Some boxes)
    (Hin : In (n_ymin, n_xmin, n_ymax, n_xmax) boxes)
    (Hinv : n_xmax < n_xmin \/ n_ymax < n_ymin) :
  drawFrame data images (Some cv) index = Throw "RangeError".
Proof.
  pose proof (displayWidthOf_pos img c_ymin c_xmin c_ymax c_xmax Hnw Hnh Hw Hh) as Hpos.
  assert (Hneg : cornerRadius (mapHighlight (c_ymin, c_xmin, c_ymax, c_xmax)
                                 (displayWidthOf img (c_ymin, c_xmin, c_ymax, c_xmax))
                                 (n_ymin, n_xmin, n_ymax, n_xmax)) < 0).
  { unfold mapHighlight, cornerRadius. cbv beta iota zeta.
    destruct Hinv as [Hx | Hy].
    - pose proof (negative_fraction (n_xmax - n_xmin) (c_xmax - c_xmin)
                    (displayWidthOf img (c_ymin, c_xmin, c_ymax, c_xmax))) as H.
      eapply Qle_lt_trans; [apply Q.le_min_r|].
      eapply Qle_lt_trans; [apply Q.le_min_l|].
      apply Qlt_shift_div_r; [Lqa.lra|]. rewrite Qmult_0_l. apply H; Lqa.lra.
    - pose proof (negative_fraction (n_ymax - n_ymin) (c_ymax - c_ymin) displayHeight) as H.
      eapply Qle_lt_trans; [apply Q.le_min_r|].
      eapply Qle_lt_trans; [apply Q.le_min_r|].
      apply Qlt_shift_div_r; [Lqa.lra|]. rewrite Qmult_0_l.
      apply H; unfold displayHeight; Lqa.lra. }
  unfold drawFrame. rewrite Hframe, Himg, Hcomplete, H2d, Hboxes, Hregion.
  cbv beta iota zeta. cbn [negb].
  destruct boxes as [|b0 bs]; [contradiction|].
  rewrite (drawHighlights_throws _ _ (b0 :: bs) _ Hin Hneg). reflexivity.
Qed.

Lemma inverted_note_box_aborts_the_render_witness :
  drawFrame Samples.inverted [Samples.pageImage] (Some Samples.blankCanvas) 0
  = Throw "RangeError".
Proof.
  assert (Hnw : 0 < naturalWidth Samples.pageImage) by (vm_compute; reflexivity).
  assert (Hnh : 0 < naturalHeight Samples.pageImage) by (vm_compute; reflexivity).
  assert (Hw : 200 < 600) by (vm_compute; reflexivity).
  assert (Hh : 100 < 300) by (vm_compute; reflexivity).
  assert (Hinv : 300 < 400 \/ 200 < 150) by (left; vm_compute; reflexivity).
  exact (inverted_note_box_aborts_the_render Samples.inverted
           [Samples.pageImage] Samples.blankCanvas 0
           (mkFrame "frame-0" (Some 0%nat) ["A4"]%string 1 Samples.wholeRegion
              (Some [(150, 400, 200, 300)]))
           Samples.pageImage [(150, 400, 200, 300)] 100 200 300 600 150 400 200 300
           eq_refl eq_refl eq_refl eq_refl Hnw Hnh eq_refl Hw Hh eq_refl
           (or_introl eq_refl) Hinv).
Defined.

(** A render that cannot be done is skipped without touching the canvas:
    when there is no frame at the index, no image for the frame's page, an
    image still loading, or no 2d context. *)
Theorem render_is_skipped_until_ready
    (data : SheetAnalysisResult) (images : list Image) (cv : Canvas) (index : nat)
    (Hnot : nth_error (frames data) index = None \/
            has2d cv = false \/
            exists frame,
              nth_error (frames data) index = Some frame /\
              match nth_error images
                      (match pageIndex frame with Some i => i | None => 0%nat end) with
              | Some img => complete img = false
              | None => True
              end) :
  drawFrame data images (Some cv) index = Ok (Some cv).
Proof.
  unfold drawFrame.
  destruct Hnot as [-> | [H2d | (frame & -> & Himg)]]; [reflexivity | |].
  - destruct (nth_error (frames data) index) as [frame|]; [|reflexivity].
    destruct (nth_error images _) as [img|]; [|reflexivity].
    destruct (complete img); [|reflexivity]. rewrite H2d. reflexivity.
  - destruct (nth_error images _) as [img|]; [|reflexivity].
    rewrite Himg. reflexivity.
Qed.

Lemma render_is_skipped_until_ready_witness :
  drawFrame Samples.highlighted [mkImage false 0 0] (Some Samples.blankCanvas) 0
  = Ok (Some Samples.blankCanvas).
Proof.
  apply render_is_skipped_until_ready. right. right.
  exists (mkFrame "frame-0" (Some 0%nat) ["A4"]%string 1 Samples.wholeRegion
            (Some [Samples.wholeRegion])).
  split; reflexivity.
Defined.

End RendererFacts.

(** ** Ingestion and the application, continued *)

Section IngestionFacts.
Import JSString GeminiService App AppFlow.
Local Open Scope string_scope.

Lemma digits_of_uint (d : Decimal.uint) :
  allChars isDigit (NilEmpty.string_of_uint d) = true.
Proof. induction d; simpl; auto. Qed.

Lemma showNat_digits (n : nat) : allChars isDigit (showNat n) = true.
Proof.
  unfold showNat, NilZero.string_of_uint.
  destruct (Nat.to_uint n); try apply digits_of_uint. reflexivity.
Qed.

Lemma showNat_inj (n m : nat) : showNat n = showNat m -> n = m.
Proof.
  assert (Hnil : forall k, Nat.to_uint k <> Decimal.Nil).
  { intros k. rewrite <- (DecimalNat.Unsigned.of_to k) at 1.
    rewrite DecimalNat.Unsigned.to_of. apply DecimalFacts.unorm_nonnil. }
  assert (Hs : forall k, showNat k = NilEmpty.string_of_uint (Nat.to_uint k)).
  { intros k. unfold showNat, NilZero.string_of_uint.
    specialize (Hnil k). destruct (Nat.to_uint k); [contradiction | reflexivity ..]. }
  rewrite !Hs. intros H. apply DecimalNat.Unsigned.to_uint_inj.
  assert (E : Some (Nat.to_uint n) = Some (Nat.to_uint m))
    by (rewrite <- !NilEmpty.usu, H; reflexivity).
  now injection E.
Qed.

Lemma digits_before_dash (a a' b b' : string) :
  allChars isDigit a = true -> allChars isDigit a' = true ->
  a ++ String "-" b = a' ++ String "-" b' -> a = a'.
Proof.
  revert a'. induction a as [|c a IH]; intros [|c' a'] Ha Ha' H; simpl in *.
  - reflexivity.
  - injection H as Hc _. subst c'. discriminate.
  - injection H as Hc _. subst c. discriminate.
  - injection H as -> H. apply andb_prop in Ha as [_ Ha].
    apply andb_prop in Ha' as [_ Ha']. f_equal. exact (IH a' Ha Ha' H).
Qed.

Lemma frameId_inj (i j : nat) (n m : N) : frameId i n = frameId j m -> i = j.
Proof.
  unfold frameId. intros H. simpl in H. injection H as H.
  apply showNat_inj.
  exact (digits_before_dash _ _ _ _ (showNat_digits i) (showNat_digits j) H).
Qed.

Lemma assignIds_ids (dateNow : nat -> N) (fs : list FrameData) :
  forall i x, In x (map id (assignIds dateNow i fs)) ->
              exists k, (i <= k)%nat /\ x = frameId k (dateNow k).
Proof.
  induction fs as [|f fs IH]; simpl; intros i x H; [contradiction|].
  destruct H as [<- | H]; [exists i; auto|].
  destruct (IH (S i) x H) as (k & Hk & ->). exists k. split; [lia | reflexivity].
Qed.

(** The local ids are collision-free: within one result no two frames get
    the same id, whatever the clock returns, and apart from the id every
    frame is kept as it came, in the same order. *)
Theorem frame_ids_are_distinct (dateNow : nat -> N) (fs : list FrameData) :
  NoDup (map id (assignIds dateNow 0 fs)) /\
  map (fun f => withId f "") (assignIds dateNow 0 fs) = map (fun f => withId f "") fs.
Proof.
  split.
  - generalize 0%nat. induction fs as [|f fs IH]; intros i; simpl; constructor.
    + intros H. destruct (assignIds_ids dateNow fs (S i) _ H) as (k & Hk & E).
      apply frameId_inj in E. lia.
    + apply IH.
  - generalize 0%nat. induction fs as [|f fs IH]; intros i; simpl; [reflexivity|].
    now rewrite IH.
Qed.

(** The player is on screen exactly after a load that succeeded: a playback
    session exists after [handleFilesSelect] if and only if the files were
    read, there is at least one of them, and the analysis returned a result;
    it is then a freshly mounted player on that result.  A failed load shows
    an error and no player even when an earlier result is still stored, and
    a reset always leaves no session. *)
Theorem session_follows_a_successful_load
    (srcs : option (list string)) (analysis : result SheetAnalysisResult) (app : State) :
  (forall s, session (handleFilesSelect srcs analysis app) = Some s <->
             exists l d, srcs = Some l /\ l <> [] /\ analysis = Ok d /\
                         s = (d, MusicPlayer.mount)) /\
  (session (handleFilesSelect srcs analysis app) = None ->
   (srcs = Some [] /\ exists d, analysis = Ok d) \/
   (status (handleFilesSelect srcs analysis app) = ERROR /\
    errorMessage (handleFilesSelect srcs analysis app) <> None)) /\
  session (handleReset (handleFilesSelect srcs analysis app)) = None /\
  handleReset (handleFilesSelect srcs analysis app) = initial.
Proof.
  split; [|split; [|split; reflexivity]].
  - intros s. split.
    + destruct srcs as [[|src l]|], analysis as [d|e]; simpl; try discriminate.
      intros H. injection H as <-. exists (src :: l), d. repeat split. discriminate.
    + intros (l & d & -> & Hl & -> & ->). destruct l; [congruence | reflexivity].
  - destruct srcs as [[|src l]|], analysis as [d|e]; simpl; intros H;
      try discriminate;
      first [ solve [left; split; [reflexivity | eauto]]
            | solve [right; split; [reflexivity | discriminate]] ].
Qed.

Lemma readFiles_length (read : FileUpload.File -> option string)
    (files : list FileUpload.File) (srcs : list string) :
  readFiles read files = Some srcs -> List.length srcs = List.length files.
Proof.
  revert srcs. induction files as [|f fs IH]; simpl; intros srcs H.
  - now injection H as <-.
  - destruct (read f); [|discriminate].
    destruct (readFiles read fs) as [l|]; [|discriminate].
    injection H as <-. simpl. now rewrite (IH l eq_refl).
Qed.

Lemma readFiles_all (read : FileUpload.File -> option string)
    (files : list FileUpload.File) :
  Forall (fun f => read f <> None) files -> exists srcs, readFiles read files = Some srcs.
Proof.
  induction 1 as [|f fs Hf _ [l IH]]; simpl; [eauto|].
  destruct (read f); [|congruence]. rewrite IH. eauto.
Qed.

Lemma readFiles_fails (read : FileUpload.File -> option string)
    (files : list FileUpload.File) (f : FileUpload.File) :
  In f files -> read f = None -> readFiles read files = None.
Proof.
  induction files as [|g fs IH]; simpl; intros Hin Hf; [contradiction|].
  destruct Hin as [-> | Hin]; [now rewrite Hf|].
  rewrite (IH Hin Hf). destruct (read g); reflexivity.
Qed.

(** From the drop to the player: only the image files of a drop are handed
    on; with none among them nothing happens at all; when all of them are
    read and the analysis succeeds the application is READY with one source
    per image file and the player on screen, so READY never comes without a
    player; when one of them cannot be read the application shows the
    reading error. *)
Theorem drop_leads_to_the_player
    (read : FileUpload.File -> option string) (d : SheetAnalysisResult)
    (files : list FileUpload.File) (app : State) :
  let images := filter FileUpload.isImage files in
  (snd (FileUpload.handleDrop (Some files) FileUpload.initial) =
   match images with [] => None | _ => Some images end) /\
  (images = [] -> dropFiles read (Ok d) (Some files) app = app) /\
  (images <> [] -> Forall (fun f => read f <> None) images ->
   let app' := dropFiles read (Ok d) (Some files) app in
   status app' = READY /\
   List.length (imageSrcs app') = List.length images /\
   session app' = Some (d, MusicPlayer.mount)) /\
  (forall f, In f images -> read f = None ->
             let app' := dropFiles read (Ok d) (Some files) app in
             status app' = ERROR /\
             errorMessage app' = Some "Error reading files." /\
             session app' = None).
Proof.
  intros images.
  assert (Hdrop : snd (FileUpload.handleDrop (Some files) FileUpload.initial) =
                  match images with [] => None | _ => Some images end).
  { unfold FileUpload.handleDrop, FileUpload.handleFiles. subst images.
    destruct files as [|f fs]; [reflexivity|].
    destruct (filter FileUpload.isImage (f :: fs)); reflexivity. }
  split; [exact Hdrop|]. unfold dropFiles. rewrite Hdrop.
  split; [intros ->; reflexivity|]. split.
  - intros Hne Hread. destruct images as [|i0 il] eqn:Hi; [congruence|].
    destruct (readFiles_all read (i0 :: il) Hread) as (srcs & Hs).
    pose proof (readFiles_length read (i0 :: il) srcs Hs) as Hlen.
    cbv zeta. rewrite Hs. simpl. split; [reflexivity|]. split; [exact Hlen|].
    destruct srcs; [discriminate | reflexivity].
  - intros f Hin Hf. destruct images as [|i0 il] eqn:Hi; [contradiction|].
    cbv zeta. rewrite (readFiles_fails read (i0 :: il) f Hin Hf). simpl. auto.
Qed.

Lemma drop_leads_to_the_player_witness :
  let files := [FileUpload.mkFile "notes.txt" "text/plain";
                FileUpload.mkFile "page1.png" "image/png"] in
  session (dropFiles (fun f => Some (FileUpload.file_name f)) (Ok Samples.twoBeats)
             (Some files) initial)
  = Some (Samples.twoBeats, MusicPlayer.mount).
Proof.
  intros files.
  apply (proj1 (proj2 (proj2 (drop_leads_to_the_player
                                (fun f => Some (FileUpload.file_name f))
                                Samples.twoBeats files initial)))).
  - discriminate.
  - repeat constructor; discriminate.
Defined.

End IngestionFacts.

(** ** The scheduler's further properties on the sample sessions *)

Section SchedulerSamples.
Import MusicPlayer PlayerView Shapes Samples MoreSamples.

Lemma scenario_playable : playable scenario.
Proof.
  split; [vm_compute; reflexivity|].
  repeat constructor; vm_compute; discriminate.
Qed.

Lemma stop_resets_from_any_state_witness :
  reachable scenario playingScenario /\
  exists stopped,
    handleStop playingScenario = Ok stopped /\
    isPlaying stopped = false /\ currentFrameIndex stopped = 0%nat /\
    pendingTimers stopped = [].
Proof.
  assert (Hreach : reachable scenario playingScenario)
    by (exists [ClickPlayPause]; vm_compute; reflexivity).
  split; [exact Hreach|].
  destruct (stop_resets_from_any_state scenario playingScenario Hreach)
    as (stopped & H1 & H2 & H3 & H4 & _).
  exists stopped. auto.
Defined.

Lemma cleanup_cancels_the_timer_witness :
  reachable scenario playingScenario /\
  pendingTimers (cleanup playingScenario) = [].
Proof.
  assert (Hreach : reachable scenario playingScenario)
    by (exists [ClickPlayPause]; vm_compute; reflexivity).
  split; [exact Hreach|].
  exact (proj1 (cleanup_cancels_the_timer scenario playingScenario Hreach)).
Defined.

Lemma at_most_one_pending_timer_witness :
  playable scenario /\ reachable scenario lastFrameOfScenario /\
  (List.length (pendingTimers lastFrameOfScenario) <= 1)%nat.
Proof.
  assert (Hreach : reachable scenario lastFrameOfScenario)
    by (exists [ClickPlayPause; Elapse 500; TimerFires 1; Elapse 250; TimerFires 2];
        vm_compute; reflexivity).
  split; [exact scenario_playable|]. split; [exact Hreach|].
  exact (proj1 (at_most_one_pending_timer scenario lastFrameOfScenario
                  scenario_playable Hreach)).
Defined.

Lemma empty_sequence_never_plays_witness :
  frames silent = [] /\ reachable silent silentAfterPlay /\
  isPlaying silentAfterPlay = false.
Proof.
  assert (Hreach : reachable silent silentAfterPlay)
    by (exists [ClickPlayPause]; vm_compute; reflexivity).
  split; [reflexivity|]. split; [exact Hreach|].
  exact (proj1 (empty_sequence_never_plays silent silentAfterPlay eq_refl Hreach)).
Defined.

Lemma speed_stays_in_range_witness :
  reachable scenario fastest /\ playbackSpeed fastest <= 2.
Proof.
  assert (Hreach : reachable scenario fastest)
    by (exists [ClickFaster; ClickFaster; ClickFaster; ClickFaster; ClickFaster; ClickFaster];
        vm_compute; reflexivity).
  split; [exact Hreach|].
  exact (proj2 (proj2 (speed_stays_in_range scenario fastest Hreach))).
Defined.

Lemma reads_follow_the_sequence_witness :
  reachable scenario lastFrameOfScenario /\
  stepwise (frameReads lastFrameOfScenario).
Proof.
  assert (Hreach : reachable scenario lastFrameOfScenario)
    by (exists [ClickPlayPause; Elapse 500; TimerFires 1; Elapse 250; TimerFires 2];
        vm_compute; reflexivity).
  split; [exact Hreach|].
  exact (proj1 (reads_follow_the_sequence scenario lastFrameOfScenario Hreach)).
Defined.


Lemma heard_is_what_was_visited_witness :
  playable scenario /\ reachable scenario lastFrameOfScenario /\
  exists e,
    audioEngine lastFrameOfScenario = Some e /\
    pitchesPlayed e = flat_map (notesAt scenario) (frameReads lastFrameOfScenario).
Proof.
  assert (Hreach : reachable scenario lastFrameOfScenario)
    by (exists [ClickPlayPause; Elapse 500; TimerFires 1; Elapse 250; TimerFires 2];
        vm_compute; reflexivity).
  split; [exact scenario_playable|]. split; [exact Hreach|].
  destruct (heard_is_what_was_visited scenario lastFrameOfScenario
              scenario_playable Hreach)
    as (e & c & H1 & _ & H3 & _).
  exists e. auto.
Defined.

(** On the scenario: C4, the rest, E4 and G4 were handed to the
    synthesizer, in that order. *)
Example scenario_pitches :
  option_map pitchesPlayed (audioEngine lastFrameOfScenario)
  = Some ["C4"; "rest"; "E4"; "G4"]%string.
Proof. vm_compute. reflexivity. Qed.

Lemma progress_stays_within_the_track_witness :
  reachable scenario playingScenario /\ frames scenario <> [] /\
  progressPercent scenario playingScenario <= 100.
Proof.
  assert (Hreach : reachable scenario playingScenario)
    by (exists [ClickPlayPause]; vm_compute; reflexivity).
  assert (Hne : frames scenario <> []) by discriminate.
  split; [exact Hreach|]. split; [exact Hne|].
  exact (proj2 (proj2 (proj2
           (progress_stays_within_the_track scenario playingScenario Hreach Hne)))).
Defined.

Lemma play_uses_the_current_speed_witness :
  playable scenario /\ reachable scenario fastest /\ isPlaying fastest = false /\
  exists frame st' t,
    handlePlayPause scenario fastest = Ok st' /\
    pendingTimers st' = [t] /\
    timer_delay t = frameDurationMs scenario frame (playbackSpeed fastest).
Proof.
  assert (Hreach : reachable scenario fastest)
    by (exists [ClickFaster; ClickFaster; ClickFaster; ClickFaster; ClickFaster; ClickFaster];
        vm_compute; reflexivity).
  assert (Hidle : isPlaying fastest = false) by (vm_compute; reflexivity).
  assert (Hne : frames scenario <> []) by discriminate.
  split; [exact scenario_playable|]. split; [exact Hreach|]. split; [exact Hidle|].
  destruct (play_uses_the_current_speed scenario fastest scenario_playable
              Hreach Hidle Hne)
    as (frame & st' & t & _ & H2 & _ & _ & H5 & _ & H7 & _).
  exists frame, st', t. auto.
Defined.

Lemma speed_buttons_compose_witness :
  exists up, handleFaster mount = Ok up /\
             forall back, handleSlower up = Ok back ->
                          playbackSpeed back == playbackSpeed mount.
Proof.
  eexists. split; [reflexivity|]. intros back Hback.
  assert (H1 : playbackSpeed mount <= 175 # 100) by (vm_compute; discriminate).
  assert (H2 : 25 # 100 <= playbackSpeed mount) by (vm_compute; discriminate).
  exact (proj1 (speed_buttons_compose mount _ _ eq_refl eq_refl) back H1 Hback H2).
Defined.

End SchedulerSamples.

Section OtherSamples.
Import AudioEngine Shapes GeminiService App AppFlow.

Lemma envelope_is_ordered_from_50ms_witness :
  nondecreasing (map eventTime (noteGain (newVoice "A4" 1 0))).
Proof.
  apply (proj1 (envelope_is_ordered_from_50ms "A4" 1 0)).
  vm_compute. discriminate.
Defined.

Lemma session_follows_a_successful_load_witness :
  session (handleFilesSelect (Some ["data:image/png;base64,AA"%string])
             (Ok Samples.twoBeats) initial)
  = Some (Samples.twoBeats, MusicPlayer.mount).
Proof.
  apply (proj1 (session_follows_a_successful_load
                  (Some ["data:image/png;base64,AA"%string])
                  (Ok Samples.twoBeats) initial)).
  exists ["data:image/png;base64,AA"%string], Samples.twoBeats.
  repeat split. discriminate.
Defined.

End OtherSamples.

Section UploadFacts.
Import FileUpload GeminiService.
Local Open Scope string_scope.

(** Picking files in the dialog and dropping them hand on the same thing:
    the image files among them, in their order, and only when there is at
    least one; the count shown is then their number, and otherwise the count
    is left as it was.  A drop always ends the drag highlight. *)
Theorem drop_and_pick_hand_on_the_images (files : option (list File)) (st : State) :
  snd (handleChange files st) = snd (handleDrop files st) /\
  selectedCount (fst (handleChange files st)) = selectedCount (fst (handleDrop files st)) /\
  dragActive (fst (handleDrop files st)) = false /\
  dragActive (fst (handleChange files st)) = dragActive st /\
  (forall valid, snd (handleDrop files st) = Some valid ->
     valid <> [] /\ Forall (fun f => isImage f = true) valid /\
     (exists fs, files = Some fs /\ valid = filter isImage fs) /\
     selectedCount (fst (handleDrop files st)) = List.length valid) /\
  (snd (handleDrop files st) = None ->
   selectedCount (fst (handleDrop files st)) = selectedCount st).
Proof.
  destruct files as [[|f fs]|];
    try (unfold handleChange, handleDrop; simpl;
         split; [reflexivity|]; split; [reflexivity|]; split; [reflexivity|];
         split; [reflexivity|]; split; [intros valid H; discriminate | reflexivity]).
  unfold handleChange, handleDrop. cbv beta iota. unfold handleFiles.
  remember (f :: fs) as l eqn:Hl. cbv zeta.
  assert (Hall : Forall (fun x => isImage x = true) (filter isImage l)).
  { apply Forall_forall. intros x Hx. apply filter_In in Hx. tauto. }
  destruct (filter isImage l) as [|g gs] eqn:Hv; simpl.
  - split; [reflexivity|]. split; [reflexivity|]. split; [reflexivity|].
    split; [reflexivity|]. split; [intros valid H; discriminate | reflexivity].
  - split; [reflexivity|]. split; [reflexivity|]. split; [reflexivity|].
    split; [reflexivity|]. split; [|discriminate].
    intros valid H. injection H as <-.
    split; [discriminate|]. split; [exact Hall|].
    split; [exists l; split; [now rewrite Hl | now rewrite Hv] | reflexivity].
Qed.

Lemma drop_and_pick_hand_on_the_images_witness :
  let files := Some [mkFile "a.pdf" "application/pdf"; mkFile "b.jpg" "image/jpeg"] in
  selectedCount (fst (handleDrop files initial)) = 1%nat.
Proof.
  intros files.
  destruct (drop_and_pick_hand_on_the_images files initial) as (_ & _ & _ & _ & H & _).
  destruct (H [mkFile "b.jpg" "image/jpeg"] eq_refl) as (_ & _ & _ & ->).
  reflexivity.
Defined.

Lemma analyzeSheetMusic_throws_witness :
  exists e, analyzeSheetMusic true (Ok (Some "[1, 2]")) (fun _ => Some (mkPayload 0 None))
              (fun _ => 0%N) = Throw e.
Proof.
  apply (proj2 (analyzeSheetMusic_throws true (Ok (Some "[1, 2]"))
                  (fun _ => Some (mkPayload 0 None)) (fun _ => 0%N))).
  right. right. right. right. exists "[1, 2]". split; [reflexivity|].
  right. exists (mkPayload 0 None). split; reflexivity.
Defined.

End UploadFacts.
